(** * Alias analysis of nvFuser ([csrc/alias_analysis.cpp]) and the device
    mesh ([csrc/multidevice/device_mesh.h]): a shallow embedding.

    Pointers to IR nodes are modelled by records that carry the name of
    the node next to the attributes the analysis reads; two pointers are
    equal when the records are.  C++ exceptions, undefined behaviour and a
    loop that runs out of steps are the [Err] outcomes of a small error
    monad. *)

From stdpp Require Import base option list sorting gmap fin_maps.

Set Default Proof Using "Type".

(** ** Outcomes *)

Inductive failure :=
| NvfError            (* NVF_ERROR / NVF_CHECK threw *)
| OutOfRange          (* std::out_of_range from [unordered_map::at] *)
| UndefinedBehavior   (* vector index out of range, empty optional read *)
| OutOfFuel.          (* the loop did not finish within the given steps *)

Inductive res (A : Type) :=
| Ok (a : A)
| Err (e : failure).
Arguments Ok {A} a.
Arguments Err {A} e.

#[global] Instance res_ret : MRet res := λ A a, Ok a.
#[global] Instance res_bind : MBind res :=
  λ A B f r, match r with Ok a => f a | Err e => Err e end.

Definition is_err {A} (r : res A) : Prop := ∃ e, r = Err e.

(** [*opt] on a [std::optional]. *)
Definition deref {A} (o : option A) : res A :=
  match o with Some a => Ok a | None => Err UndefinedBehavior end.

(** [v[i]] on a [std::vector]. *)
Definition at_index {A} (v : list A) (i : nat) : res A :=
  match v !! i with Some a => Ok a | None => Err UndefinedBehavior end.

(** [m.at(k)] on a read-only [std::unordered_map]. *)
Definition map_at {K A} (m : K → option A) (k : K) : res A :=
  match m k with Some a => Ok a | None => Err OutOfRange end.

(** ** IR nodes read by the analysis *)

Record IterDomain := {
  id_name : positive;
  isReduction : bool;
  isBroadcast : bool;
  hasExpandedExtent : bool;
}.

#[global] Instance IterDomain_eq_dec : EqDecision IterDomain.
Proof. solve_decision. Defined.

#[global] Instance IterDomain_countable : Countable IterDomain :=
  inj_countable'
    (λ d, (id_name d, isReduction d, isBroadcast d, hasExpandedExtent d))
    (λ '(n, r, b, e),
       {| id_name := n; isReduction := r; isBroadcast := b;
          hasExpandedExtent := e |})
    (λ d, match d with Build_IterDomain _ _ _ _ => eq_refl end).

(** Contiguity of one allocation dimension: [std::optional<bool>]. *)
Abbreviation contig := (option bool).

Definition has_value {A} (o : option A) : bool :=
  match o with Some _ => true | None => false end.

(** ** Contiguity of a split and of a merge *)

Definition splitContiguity (contiguity : contig) : contig * contig :=
  if negb (has_value contiguity) then (None, None)
  else match contiguity with
       | Some true => (Some true, Some true)
       | _ => (Some true, Some false)
       end.

Definition mergeContiguity
    (outer_id : IterDomain) (outer_contiguity : contig)
    (inner_id : IterDomain) (inner_contiguity : contig)
  : res (bool * contig) :=
  if negb (has_value outer_contiguity) && negb (hasExpandedExtent outer_id)
  then Ok (true, inner_contiguity)
  else if negb (has_value inner_contiguity) && negb (hasExpandedExtent inner_id)
  then Ok (true, outer_contiguity)
  else if hasExpandedExtent outer_id && hasExpandedExtent inner_id
  then Ok (true, None)
  else if hasExpandedExtent outer_id || hasExpandedExtent inner_id
  then Ok (false, None)
  else
    c ← deref outer_contiguity;
    if c : bool then Ok (true, inner_contiguity) else Ok (false, None).

(** A side "has unknown contiguity and is not an expanded dimension". *)
Definition unknown_unexpanded (id : IterDomain) (c : contig) : Prop :=
  c = None ∧ hasExpandedExtent id = false.

(** ** Tensors, values and operations *)

Record TensorView := {
  tv_name : positive;
  getRootDomain : list IterDomain;
  getMaybeRFactorDomain : list IterDomain;
  getAllocationDomain : list IterDomain;
  getContiguity : list contig;
  isFusionInput : bool;
  isFusionOutput : bool;
}.

#[global] Instance TensorView_eq_dec : EqDecision TensorView.
Proof. solve_decision. Defined.

#[global] Instance TensorView_countable : Countable TensorView :=
  inj_countable'
    (λ t, (tv_name t, getRootDomain t, getMaybeRFactorDomain t,
           getAllocationDomain t, getContiguity t,
           isFusionInput t, isFusionOutput t))
    (λ '(n, root, rfactor, alloc, c, i, o),
       {| tv_name := n; getRootDomain := root;
          getMaybeRFactorDomain := rfactor; getAllocationDomain := alloc;
          getContiguity := c; isFusionInput := i; isFusionOutput := o |})
    (λ t, match t with Build_TensorView _ _ _ _ _ _ _ => eq_refl end).

(** Modelled from the spec: [TensorView::getMaybeAllocationDomain] is declared
    outside this file; it is the tensor's allocation domain or, if that is
    empty, its default domain derived from the root (the logical, maybe-rfactor
    domain). *)
Definition getMaybeAllocationDomain (tv : TensorView) : list IterDomain :=
  if bool_decide (getAllocationDomain tv = [])
  then getMaybeRFactorDomain tv
  else getAllocationDomain tv.

(** A [Val*]: a tensor or something else (a scalar). *)
Inductive Val :=
| ValTensor (tv : TensorView)
| ValScalar (name : positive).

(** [dynamic_cast<TensorView*>(v)]. *)
Definition as_TensorView (v : Val) : option TensorView :=
  match v with ValTensor tv => Some tv | ValScalar _ => None end.

(** IterDomain transformations found between a root and an rfactor domain. *)
Inductive IdExpr :=
| Split (inp outer inner : IterDomain)
| Merge (outer inner out : IterDomain)
| Resize (inp out : IterDomain)
| OtherIdExpr.

Definition isResize (e : IdExpr) : bool :=
  match e with Resize _ _ => true | _ => false end.

(** The operations of a fusion that the alias finder dispatches on. *)
Inductive Expr :=
| ViewOp (inp out : TensorView)
| LoadStoreOp (inp : Val) (out : TensorView)
| SliceOp (inp out : TensorView)
| BroadcastOp (inp : Val) (out : TensorView) (isBroadcastDim : nat → bool)
| SqueezeOp (inp : Val) (out : TensorView)
| OtherExpr.

Record Fusion := {
  exprs : list Expr;        (* in topological order *)
  outputs : list Val;
}.

(** ** Layout *)

Record Layout := {
  allocation_domain : list IterDomain;
  contiguity : list contig;
}.

#[global] Instance Layout_eq_dec : EqDecision Layout.
Proof. solve_decision. Defined.

(** The invariant of a layout: one contiguity flag per allocation dimension. *)
Definition layout_wf (l : Layout) : Prop :=
  length (allocation_domain l) = length (contiguity l).

Definition contiguityIsCompliant (actual required : contig) : bool :=
  if bool_decide (actual = Some true) && bool_decide (required = Some false)
  then true
  else bool_decide (actual = required).

(** The loop of [Layout::isCompliantWith] over [c10::irange(n)]. *)
Fixpoint compliant_loop (range : list nat) (actual required : list contig)
  : res bool :=
  match range with
  | [] => Ok true
  | i :: range' =>
      a ← at_index actual i;
      r ← at_index required i;
      if negb (contiguityIsCompliant a r) then Ok false
      else compliant_loop range' actual required
  end.

Definition isCompliantWith (self required : Layout) : res bool :=
  if bool_decide (allocation_domain required = []) then Ok true
  else if bool_decide (allocation_domain self ≠ allocation_domain required)
  then Ok false
  else compliant_loop (seq 0 (length (allocation_domain self)))
         (contiguity self) (contiguity required).

(** ** AliasAnalysisResult *)

(** Both maps are keyed by the tensor, the model of its address. *)
Record AliasAnalysisResult := {
  alias_to_source_ : gmap TensorView (TensorView * Layout);
  out_to_root_ : gmap TensorView TensorView;
}.

Definition empty_analysis : AliasAnalysisResult :=
  {| alias_to_source_ := ∅; out_to_root_ := ∅ |}.

(** [emplace] inserts only when the key is free; [NVF_ERROR(inserted)]. *)
Definition add (alias source : TensorView) (layout : Layout)
    (st : AliasAnalysisResult) : res AliasAnalysisResult :=
  match alias_to_source_ st !! alias with
  | None =>
      Ok {| alias_to_source_ :=
              <[alias := (source, layout)]> (alias_to_source_ st);
            out_to_root_ := out_to_root_ st |}
  | Some _ => Err NvfError
  end.

(** The source registered for a tensor, [nullptr] when there is none. *)
Definition source_of (st : AliasAnalysisResult) (t : TensorView)
  : option TensorView :=
  match alias_to_source_ st !! t with
  | None => None
  | Some (source, _) => Some source
  end.

(** The do-while loop of [findNearestAliasedIo]; [fuel] bounds the number of
    iterations of its body. *)
Fixpoint findNearestAliasedIo (fuel : nat) (st : AliasAnalysisResult)
    (fusion_out : TensorView) : res (option TensorView) :=
  match fuel with
  | 0 => Err OutOfFuel
  | S fuel' =>
      match source_of st fusion_out with
      | None => Ok None
      | Some root =>
          if negb (isFusionInput root) && negb (isFusionOutput root)
          then findNearestAliasedIo fuel' st root
          else Ok (Some root)
      end
  end.

Definition getNearestAliasedIo (st : AliasAnalysisResult)
    (fusion_out : TensorView) : option TensorView :=
  out_to_root_ st !! fusion_out.

Definition preferredLayout (st : AliasAnalysisResult) (v : Val) : res Layout :=
  match as_TensorView v with
  | None => Err NvfError
  | Some tv =>
      match alias_to_source_ st !! tv with
      | Some (_, layout) => Ok layout
      | None =>
          Ok {| allocation_domain := getMaybeAllocationDomain tv;
                contiguity := getContiguity tv |}
      end
  end.

Definition okToRelayout (out : TensorView) (new_layout : Layout)
    (can_override_empty_allocation_domain : bool) : res bool :=
  let out_allocation :=
    if can_override_empty_allocation_domain then getAllocationDomain out
    else getMaybeAllocationDomain out in
  isCompliantWith new_layout
    {| allocation_domain := out_allocation; contiguity := getContiguity out |}.

(** [ir_utils::filterByType<TensorView>]. *)
Definition filterByType_TensorView (vs : list Val) : list TensorView :=
  omap as_TensorView vs.

(** The loop of [finalize] over the tensor outputs of the fusion. *)
Fixpoint finalize_loop (fuel : nat) (can_override_empty_allocation_domain : bool)
    (outs : list TensorView) (st : AliasAnalysisResult)
  : res AliasAnalysisResult :=
  match outs with
  | [] => Ok st
  | out :: outs' =>
      root ← findNearestAliasedIo fuel st out;
      match root with
      | None => finalize_loop fuel can_override_empty_allocation_domain outs' st
      | Some root =>
          preferred_layout ← preferredLayout st (ValTensor out);
          ok ← okToRelayout out preferred_layout
                 can_override_empty_allocation_domain;
          if negb ok
          then finalize_loop fuel can_override_empty_allocation_domain outs' st
          else finalize_loop fuel can_override_empty_allocation_domain outs'
                 {| alias_to_source_ := alias_to_source_ st;
                    out_to_root_ := <[out := root]> (out_to_root_ st) |}
      end
  end.

Definition finalize (fuel : nat) (fusion : Fusion)
    (can_override_empty_allocation_domain : bool) (st : AliasAnalysisResult)
  : res AliasAnalysisResult :=
  finalize_loop fuel can_override_empty_allocation_domain
    (filterByType_TensorView (outputs fusion)) st.

(** ** LinkedHashMap *)

(** Modelled from the spec: [linked_hash_map.h] is not part of this file.  It
    is the ordered associative sequence of the view replay: insert, erase and
    lookup by key while the relative order of the other entries is kept.  An
    iterator is modelled by the key of the entry it points to, [None] for
    [end()].  [erase] of a missing key and [insert] of a present key fail. *)
Section LinkedHashMap.
Context {K V : Type} `{EqDecision K}.

(** Returns the erased value and the iterator to the entry that followed
    it, next to the remaining map. *)
Fixpoint lhm_erase (key : K) (m : list (K * V))
  : res (V * option K * list (K * V)) :=
  match m with
  | [] => Err OutOfRange
  | (k, v) :: m' =>
      if decide (k = key) then Ok (v, head (m'.*1), m')
      else
        '(v', i, m'') ← lhm_erase key m';
        Ok (v', i, (k, v) :: m'')
  end.

Fixpoint lhm_insert_before (i : option K) (kv : K * V) (m : list (K * V))
  : res (list (K * V)) :=
  match i, m with
  | None, _ => Ok (m ++ [kv])
  | Some _, [] => Err UndefinedBehavior
  | Some k', (k, v) :: m' =>
      if decide (k = k') then Ok (kv :: m)
      else m'' ← lhm_insert_before i kv m'; Ok ((k, v) :: m'')
  end.

(** Inserts [(key, value)] before the entry that [i] points to. *)
Definition lhm_insert (i : option K) (key : K) (value : V)
    (m : list (K * V)) : res (list (K * V)) :=
  if bool_decide (key ∈ m.*1) then Err NvfError
  else lhm_insert_before i (key, value) m.

Definition lhm_pushBack (key : K) (value : V) (m : list (K * V))
  : res (list (K * V)) :=
  lhm_insert None key value m.
End LinkedHashMap.

(** ** The per-operation rules of [AliasFinder] *)

(** Modelled from the spec: [ir_utils::computePermutation] is not part of this
    file; it has a value exactly when [out] is a permutation of [inp], and
    then lists, for each element of [out], its position in [inp]. *)
Definition computePermutation (inp out : list IterDomain) : option (list nat) :=
  if decide (inp ≡ₚ out)
  then Some ((λ x, default 0 (fst <$> list_find (x =.) inp)) <$> out)
  else None.

Definition map_or_identity (map : IterDomain → option IterDomain)
    (id : IterDomain) : IterDomain :=
  match map id with None => id | Some x => x end.

(** The loop that the permute, broadcast and squeeze rules each write out:
    for every index [i] of [in_layout.allocation_domain], skip the dimension
    or push its image under [in_rfactor_to_out_root] and
    [in_layout.contiguity[i]]. *)
Fixpoint carry_over (skip : IterDomain → bool)
    (in_rfactor_to_out_root : IterDomain → option IterDomain)
    (i : nat) (in_allocation : list IterDomain) (in_contiguity : list contig)
    (out_layout : Layout) : res Layout :=
  match in_allocation with
  | [] => Ok out_layout
  | in_allocation_id :: rest =>
      if skip in_allocation_id
      then carry_over skip in_rfactor_to_out_root (S i) rest in_contiguity
             out_layout
      else
        out_id ← map_at in_rfactor_to_out_root in_allocation_id;
        c ← at_index in_contiguity i;
        carry_over skip in_rfactor_to_out_root (S i) rest in_contiguity
          {| allocation_domain := allocation_domain out_layout ++ [out_id];
             contiguity := contiguity out_layout ++ [c] |}
  end.

(** First loop of the view rule: the allocation order of the input, without
    reductions, as a linked map to the contiguity. *)
Fixpoint collect_allocation (i : nat) (in_allocation : list IterDomain)
    (in_contiguity : list contig) (acc : list (IterDomain * contig))
  : res (list (IterDomain * contig)) :=
  match in_allocation with
  | [] => Ok acc
  | in_allocation_id :: rest =>
      if isReduction in_allocation_id
      then collect_allocation (S i) rest in_contiguity acc
      else
        c ← at_index in_contiguity i;
        acc' ← lhm_pushBack in_allocation_id c acc;
        collect_allocation (S i) rest in_contiguity acc'
  end.

(** One iteration of the replay loop of the view rule; [Ok None] is the
    early [return] that gives up on the alias. *)
Definition replay_transform
    (out_root_to_in_rfactor : IterDomain → option IterDomain)
    (transform : IdExpr) (allocation_to_contiguity : list (IterDomain * contig))
  : res (option (list (IterDomain * contig))) :=
  match transform with
  | Split split_in0 split_outer split_inner =>
      let split_in := map_or_identity out_root_to_in_rfactor split_in0 in
      '(contiguity, split_i, m) ← lhm_erase split_in allocation_to_contiguity;
      let '(outer_contiguity, inner_contiguity) := splitContiguity contiguity in
      m ← lhm_insert split_i split_outer outer_contiguity m;
      m ← lhm_insert split_i split_inner inner_contiguity m;
      Ok (Some m)
  | Merge merge_outer0 merge_inner0 merge_out =>
      let merge_inner := map_or_identity out_root_to_in_rfactor merge_inner0 in
      let merge_outer := map_or_identity out_root_to_in_rfactor merge_outer0 in
      '(outer_contiguity, inner_i, m) ←
        lhm_erase merge_outer allocation_to_contiguity;
      if bool_decide (inner_i ≠ Some merge_inner) then Ok None
      else
        '(inner_contiguity, merge_i, m) ← lhm_erase merge_inner m;
        '(mergeable, contiguity) ←
          mergeContiguity merge_outer outer_contiguity
            merge_inner inner_contiguity;
        if negb mergeable then Ok None
        else m ← lhm_insert merge_i merge_out contiguity m; Ok (Some m)
  | _ => Err NvfError
  end.

Fixpoint replay (out_root_to_in_rfactor : IterDomain → option IterDomain)
    (transforms : list IdExpr)
    (allocation_to_contiguity : list (IterDomain * contig))
  : res (option (list (IterDomain * contig))) :=
  match transforms with
  | [] => Ok (Some allocation_to_contiguity)
  | transform :: rest =>
      r ← replay_transform out_root_to_in_rfactor transform
            allocation_to_contiguity;
      match r with
      | None => Ok None
      | Some m => replay out_root_to_in_rfactor rest m
      end
  end.

(** [out_root_to_rfactor[out_root[i]] = out_rfactor[i]] for [i < out_rank]. *)
Fixpoint build_out_root_to_rfactor (range : list nat)
    (out_root out_rfactor : list IterDomain)
    (acc : gmap IterDomain IterDomain) : res (gmap IterDomain IterDomain) :=
  match range with
  | [] => Ok acc
  | i :: range' =>
      k ← at_index out_root i;
      v ← at_index out_rfactor i;
      build_out_root_to_rfactor range' out_root out_rfactor (<[k := v]> acc)
  end.

Section Rules.
(** The collaborators the rules consult, with their contracts fixed
    elsewhere: the pairwise root-domain maps of a producer and a consumer,
    and the expressions between two sets of iteration domains. *)
Variable mapProducerToConsumer :
  TensorView → TensorView → IterDomain → option IterDomain.
Variable mapConsumerToProducer :
  TensorView → TensorView → IterDomain → option IterDomain.
Variable getAllExprsBetween :
  list IterDomain → list IterDomain → list IdExpr.

Definition handle_ViewOp (inp out : TensorView) (st : AliasAnalysisResult)
  : res AliasAnalysisResult :=
  let in_rfactor := getMaybeRFactorDomain inp in
  let out_root := getRootDomain out in
  let out_rfactor := getMaybeRFactorDomain out in
  in_layout ← preferredLayout st (ValTensor inp);
  if negb (has_value
             (computePermutation in_rfactor (allocation_domain in_layout)))
  then Ok st
  else
    let in_rfactor_to_out_root := mapProducerToConsumer inp out in
    let out_root_to_in_rfactor := mapConsumerToProducer inp out in
    allocation_to_contiguity ←
      collect_allocation 0 (allocation_domain in_layout)
        (contiguity in_layout) [];
    r ← replay out_root_to_in_rfactor
          (getAllExprsBetween out_root out_rfactor) allocation_to_contiguity;
    match r with
    | None => Ok st
    | Some m =>
        add out inp
          {| allocation_domain :=
               map_or_identity in_rfactor_to_out_root <$> m.*1;
             contiguity := m.*2 |} st
    end.

Definition handle_LoadStoreOp (permute_in : Val) (out : TensorView)
    (st : AliasAnalysisResult) : res AliasAnalysisResult :=
  match as_TensorView permute_in with
  | None => Ok st
  | Some inp =>
      in_layout ← preferredLayout st (ValTensor inp);
      if negb (has_value
                 (computePermutation (getMaybeRFactorDomain inp)
                    (allocation_domain in_layout)))
      then Ok st
      else
        out_layout ←
          carry_over isReduction (mapProducerToConsumer inp out) 0
            (allocation_domain in_layout) (contiguity in_layout)
            {| allocation_domain := []; contiguity := [] |};
        add out inp out_layout st
  end.

(** Allocation order of a slice: the images of the input's non-reduction
    allocation dimensions in the rfactor domain of the output. *)
Fixpoint slice_allocation
    (in_rfactor_to_out_root : IterDomain → option IterDomain)
    (out_root_to_rfactor : gmap IterDomain IterDomain)
    (in_allocation : list IterDomain) : res (list IterDomain) :=
  match in_allocation with
  | [] => Ok []
  | in_allocation_id :: rest =>
      if isReduction in_allocation_id
      then slice_allocation in_rfactor_to_out_root out_root_to_rfactor rest
      else
        out_root_id ← map_at in_rfactor_to_out_root in_allocation_id;
        out_id ← map_at (λ k, out_root_to_rfactor !! k) out_root_id;
        rest' ← slice_allocation in_rfactor_to_out_root out_root_to_rfactor
                  rest;
        Ok (out_id :: rest')
  end.

(** [out_allocation_id] is sliced: a Resize lies between the root domain of
    the output and this dimension. *)
Definition is_sliced (out_root : list IterDomain) (id : IterDomain) : bool :=
  existsb isResize (getAllExprsBetween out_root [id]).

(** The minor-to-major scan of the slice rule; the iteration run for
    [S i] is the one at index [i]. *)
Fixpoint slice_scan (out_root out_allocation : list IterDomain)
    (in_contiguity : list contig) (n : nat)
    (next_non_broadcast_is_non_contiguous : bool)
    (out_contiguity : list contig) : res (list contig) :=
  match n with
  | 0 => Ok out_contiguity
  | S i =>
      id ← at_index out_allocation i;
      '(c, next) ←
        (if isBroadcast id
         then Ok (None, next_non_broadcast_is_non_contiguous)
         else if next_non_broadcast_is_non_contiguous
         then Ok (Some false, false)
         else c ← at_index in_contiguity i;
              Ok (c, next_non_broadcast_is_non_contiguous));
      slice_scan out_root out_allocation in_contiguity i
        (if is_sliced out_root id then true else next)
        (<[i := c]> out_contiguity)
  end.

Definition handle_SliceOp (inp out : TensorView) (st : AliasAnalysisResult)
  : res AliasAnalysisResult :=
  let in_rfactor := getMaybeRFactorDomain inp in
  let out_root := getRootDomain out in
  let out_rfactor := getMaybeRFactorDomain out in
  let in_rfactor_to_out_root := mapProducerToConsumer inp out in
  let out_rank := length out_rfactor in
  out_root_to_rfactor ←
    build_out_root_to_rfactor (seq 0 out_rank) out_root out_rfactor ∅;
  in_layout ← preferredLayout st (ValTensor inp);
  if negb (has_value
             (computePermutation in_rfactor (allocation_domain in_layout)))
  then Ok st
  else
    out_allocation ←
      slice_allocation in_rfactor_to_out_root out_root_to_rfactor
        (allocation_domain in_layout);
    out_contiguity ←
      slice_scan out_root out_allocation (contiguity in_layout) out_rank
        false (replicate out_rank None);
    add out inp
      {| allocation_domain := out_allocation;
         contiguity := out_contiguity |} st.

(** Second loop of the broadcast rule: the new broadcast dimensions go to
    the end, with no contiguity. *)
Fixpoint append_broadcast_dims (isBroadcastDim : nat → bool) (i : nat)
    (out_rfactor : list IterDomain) (out_layout : Layout) : Layout :=
  match out_rfactor with
  | [] => out_layout
  | id :: rest =>
      append_broadcast_dims isBroadcastDim (S i) rest
        (if isBroadcastDim i
         then {| allocation_domain := allocation_domain out_layout ++ [id];
                 contiguity := contiguity out_layout ++ [None] |}
         else out_layout)
  end.

Definition handle_BroadcastOp (bcast_in : Val) (out : TensorView)
    (isBroadcastDim : nat → bool) (st : AliasAnalysisResult)
  : res AliasAnalysisResult :=
  match as_TensorView bcast_in with
  | None => Ok st
  | Some inp =>
      in_layout ← preferredLayout st (ValTensor inp);
      if negb (has_value
                 (computePermutation (getMaybeRFactorDomain inp)
                    (allocation_domain in_layout)))
      then Ok st
      else
        out_layout ←
          carry_over isReduction (mapProducerToConsumer inp out) 0
            (allocation_domain in_layout) (contiguity in_layout)
            {| allocation_domain := []; contiguity := [] |};
        add out inp
          (append_broadcast_dims isBroadcastDim 0
             (getMaybeRFactorDomain out) out_layout) st
  end.

Definition handle_SqueezeOp (squeeze_in : Val) (out : TensorView)
    (st : AliasAnalysisResult) : res AliasAnalysisResult :=
  match as_TensorView squeeze_in with
  | None => Ok st
  | Some inp =>
      in_layout ← preferredLayout st (ValTensor inp);
      if negb (has_value
                 (computePermutation (getMaybeRFactorDomain inp)
                    (allocation_domain in_layout)))
      then Ok st
      else
        let in_rfactor_to_out_root := mapProducerToConsumer inp out in
        out_layout ←
          carry_over (λ id, bool_decide (in_rfactor_to_out_root id = None))
            in_rfactor_to_out_root 0
            (allocation_domain in_layout) (contiguity in_layout)
            {| allocation_domain := []; contiguity := [] |};
        add out inp out_layout st
  end.

(** [OptOutConstDispatch]: operations without a handler are skipped. *)
Definition dispatch (expr : Expr) (st : AliasAnalysisResult)
  : res AliasAnalysisResult :=
  match expr with
  | ViewOp inp out => handle_ViewOp inp out st
  | LoadStoreOp inp out => handle_LoadStoreOp inp out st
  | SliceOp inp out => handle_SliceOp inp out st
  | BroadcastOp inp out flags => handle_BroadcastOp inp out flags st
  | SqueezeOp inp out => handle_SqueezeOp inp out st
  | OtherExpr => Ok st
  end.

Fixpoint dispatch_all (es : list Expr) (st : AliasAnalysisResult)
  : res AliasAnalysisResult :=
  match es with
  | [] => Ok st
  | expr :: es' => st' ← dispatch expr st; dispatch_all es' st'
  end.

Definition findAliases (fuel : nat) (fusion : Fusion)
    (can_override_empty_allocation_domain : bool)
  : res AliasAnalysisResult :=
  analysis ← dispatch_all (exprs fusion) empty_analysis;
  finalize fuel fusion can_override_empty_allocation_domain analysis.
End Rules.

(** ** DeviceMesh *)

Module DeviceMesh.
Abbreviation DeviceIdxType := Z.

Record t := { vector_ : list DeviceIdxType }.

(** [std::unique]: the range that is kept, one element of every group of
    consecutive equal elements; the iterator it returns is the end of that
    range. *)
Fixpoint std_unique (v : list DeviceIdxType) : list DeviceIdxType :=
  match v with
  | [] => []
  | x :: rest =>
      match rest with
      | y :: _ => if decide (x = y) then std_unique rest
                  else x :: std_unique rest
      | [] => [x]
      end
  end.

(** [std::unique(begin, end) == end]. *)
Definition unique_returns_end (v : list DeviceIdxType) : bool :=
  bool_decide (length (std_unique v) = length v).

Definition setDevices (devices : list DeviceIdxType) : res t :=
  let vector_ := devices in
  if unique_returns_end vector_ then Ok {| vector_ := vector_ |}
  else Err NvfError.

(** The constructor and [operator=] both only call [setDevices]. *)
Definition make (devices : list DeviceIdxType) : res t := setDevices devices.
Definition assign (devices : list DeviceIdxType) (_ : t) : res t :=
  setDevices devices.

Definition vector (m : t) : list DeviceIdxType := vector_ m.

Definition has (m : t) (device : DeviceIdxType) : bool :=
  bool_decide (device ∈ vector_ m).
End DeviceMesh.

(** ** Statements used by the theorems *)

(** A sequence of registrations, as the driver performs them. *)
Fixpoint add_all (l : list (TensorView * TensorView * Layout))
    (st : AliasAnalysisResult) : res AliasAnalysisResult :=
  match l with
  | [] => Ok st
  | (alias, source, layout) :: l' =>
      st' ← add alias source layout st; add_all l' st'
  end.

(** A graph input or output: the tensors the chain walk stops at. *)
Definition is_io (t : TensorView) : bool :=
  isFusionInput t || isFusionOutput t.

(** [aliases_via st t mids r]: following [alias_to_source_] from [t] leads to
    [r] through the tensors [mids], none of which is a graph input or
    output. *)
Inductive aliases_via (st : AliasAnalysisResult)
  : TensorView → list TensorView → TensorView → Prop :=
| via_direct t r :
    source_of st t = Some r → aliases_via st t [] r
| via_step t s mids r :
    source_of st t = Some s → is_io s = false →
    aliases_via st s mids r → aliases_via st t (s :: mids) r.

(** What the body of the loop of [finalize] decides for one output: the root
    to record, or nothing. *)
Definition finalize_decision (fuel : nat)
    (can_override_empty_allocation_domain : bool) (st : AliasAnalysisResult)
    (out : TensorView) : res (option TensorView) :=
  root ← findNearestAliasedIo fuel st out;
  match root with
  | None => Ok None
  | Some root =>
      preferred_layout ← preferredLayout st (ValTensor out);
      ok ← okToRelayout out preferred_layout
             can_override_empty_allocation_domain;
      Ok (if ok : bool then Some root else None)
  end.

(** The layout an output is checked against, as [okToRelayout] builds it. *)
Definition required_layout (can_override_empty_allocation_domain : bool)
    (out : TensorView) : Layout :=
  {| allocation_domain :=
       if can_override_empty_allocation_domain then getAllocationDomain out
       else getMaybeAllocationDomain out;
     contiguity := getContiguity out |}.

(** The layout the documentation names for each value of the flag: the
    allocation domain as it is when the flag is false, the allocation domain
    or else the default one when the flag is true. *)
Definition documented_required_layout (allow_override_empty_allocation : bool)
    (out : TensorView) : Layout :=
  {| allocation_domain :=
       if allow_override_empty_allocation then getMaybeAllocationDomain out
       else getAllocationDomain out;
     contiguity := getContiguity out |}.

(** The contiguity of a tensor matches its (maybe-)allocation domain. *)
Definition tensor_wf (t : TensorView) : Prop :=
  length (getMaybeAllocationDomain t) = length (getContiguity t).

(** Every registered layout satisfies the layout invariant. *)
Definition layouts_wf (st : AliasAnalysisResult) : Prop :=
  ∀ t s L, alias_to_source_ st !! t = Some (s, L) → layout_wf L.

(** The pending "next non-broadcast dimension is non-contiguous" flag on
    arrival at a dimension, from the dimensions [minor] that follow it in
    allocation order, nearest first: the nearest dimension that sets the flag
    or is not a broadcast decides.  [sets_flag] tells which dimensions set
    the flag once they have been visited. *)
Fixpoint pending_flag (sets_flag : IterDomain → bool) (init : bool)
    (minor : list IterDomain) : bool :=
  match minor with
  | [] => init
  | id :: rest =>
      if sets_flag id then true
      else if isBroadcast id then pending_flag sets_flag init rest
      else false
  end.

(** The contiguity of the output of a slice at allocation index [i], when the
    scan covers the first [n] allocation dimensions. *)
Definition scan_contiguity (sets_flag : IterDomain → bool)
    (out_allocation : list IterDomain) (in_contiguity : list contig)
    (n i : nat) : option contig :=
  id ← out_allocation !! i;
  if isBroadcast id then Some None
  else if pending_flag sets_flag false (drop (S i) (take n out_allocation))
  then Some (Some false)
  else in_contiguity !! i.

(** The reading under which only a sliced dimension that is not a broadcast
    sets the flag. *)
Definition sliced_non_broadcast (sliced : IterDomain → bool)
    (id : IterDomain) : bool :=
  sliced id && negb (isBroadcast id).

(** [outer] is immediately followed by [inner] in a linked map. *)
Definition adjacent_in {K V} (m : list (K * V)) (outer inner : K) : Prop :=
  ∃ l1 vo vi l2, m = l1 ++ (outer, vo) :: (inner, vi) :: l2.

(** The contract of the pairwise map that the slice rule relies on: the
    logical dimensions of the producer are pairwise different and no two
    of them map to the same root dimension of the consumer. *)
Definition slice_contract
    (mapProducerToConsumer :
       TensorView → TensorView → IterDomain → option IterDomain)
    (inp out : TensorView) : Prop :=
  NoDup (getMaybeRFactorDomain inp) ∧
  ∀ a b c, mapProducerToConsumer inp out a = Some c →
           mapProducerToConsumer inp out b = Some c → a = b.

(** The (alias, source) pair an operation can register: its output and its
    tensor input. *)
Definition aliasing_pair (e : Expr) : option (TensorView * TensorView) :=
  match e with
  | ViewOp inp out | SliceOp inp out => Some (out, inp)
  | LoadStoreOp (ValTensor inp) out
  | BroadcastOp (ValTensor inp) out _
  | SqueezeOp (ValTensor inp) out => Some (out, inp)
  | _ => None
  end.

Definition isSplit (e : IdExpr) : bool :=
  match e with Split _ _ _ => true | _ => false end.

Definition isMerge (e : IdExpr) : bool :=
  match e with Merge _ _ _ => true | _ => false end.

(** The allocation dimensions a rule carries over, paired with their
    contiguity: those that [skip] does not drop. *)
Definition kept_dims (skip : IterDomain → bool) (in_layout : Layout)
  : list (IterDomain * contig) :=
  filter (λ p, skip p.1 = false)
    (zip (allocation_domain in_layout) (contiguity in_layout)).

(** The dimensions of [out_rfactor] that a broadcast introduces, those at the
    indices [i], [i + 1], ... that [isBroadcastDim] marks. *)
Fixpoint new_broadcast_dims (isBroadcastDim : nat → bool) (i : nat)
    (out_rfactor : list IterDomain) : list IterDomain :=
  match out_rfactor with
  | [] => []
  | id :: rest =>
      if isBroadcastDim i
      then id :: new_broadcast_dims isBroadcastDim (S i) rest
      else new_broadcast_dims isBroadcastDim (S i) rest
  end.

(** No device index is immediately followed by itself. *)
Definition no_equal_neighbours (devices : list Z) : Prop :=
  ∀ i x, devices !! i = Some x → devices !! S i ≠ Some x.

(** ** Example data *)

Module Ex.
Definition dim (n : positive) : IterDomain :=
  {| id_name := n; isReduction := false; isBroadcast := false;
     hasExpandedExtent := false |}.

Definition expanded (n : positive) : IterDomain :=
  {| id_name := n; isReduction := false; isBroadcast := true;
     hasExpandedExtent := true |}.

Definition bcast (n : positive) : IterDomain :=
  {| id_name := n; isReduction := false; isBroadcast := true;
     hasExpandedExtent := false |}.

(** A tensor with no allocation domain of its own and all-true contiguity. *)
Definition tensor (n : positive) (dims : list IterDomain)
    (is_input is_output : bool) : TensorView :=
  {| tv_name := n; getRootDomain := dims; getMaybeRFactorDomain := dims;
     getAllocationDomain := []; getContiguity := (λ _, Some true) <$> dims;
     isFusionInput := is_input; isFusionOutput := is_output |}.

Definition layout_of (t : TensorView) : Layout :=
  {| allocation_domain := getMaybeAllocationDomain t;
     contiguity := getContiguity t |}.

(** A chain [tA → tB → tC]: [tC] is a graph input, [tB] is hidden and [tA]
    is a graph output. *)
Definition tC := tensor 1 [dim 1; dim 2] true false.
Definition tB := tensor 2 [dim 3; dim 4] false false.
Definition tA := tensor 3 [dim 5; dim 6] false true.

Definition st_chain : AliasAnalysisResult :=
  {| alias_to_source_ :=
       <[tA := (tB, layout_of tA)]> (<[tB := (tC, layout_of tB)]> ∅);
     out_to_root_ := ∅ |}.

(** The same chain when its last tensor is not a graph input or output. *)
Definition tC' := tensor 1 [dim 1; dim 2] false false.

Definition st_hidden : AliasAnalysisResult :=
  {| alias_to_source_ :=
       <[tA := (tB, layout_of tA)]> (<[tB := (tC', layout_of tB)]> ∅);
     out_to_root_ := ∅ |}.

(** A hidden tensor registered as an alias of itself. *)
Definition st_loop : AliasAnalysisResult :=
  {| alias_to_source_ := <[tB := (tB, layout_of tB)]> ∅;
     out_to_root_ := ∅ |}.

(** A graph output whose registered layout reverses its logical order. *)
Definition tP := tensor 4 [dim 7; dim 8] false true.

Definition st_permuted : AliasAnalysisResult :=
  {| alias_to_source_ :=
       <[tP := (tC, {| allocation_domain := [dim 8; dim 7];
                       contiguity := [Some true; Some true] |})]> ∅;
     out_to_root_ := ∅ |}.

Definition fusion_of (outs : list TensorView) : Fusion :=
  {| exprs := []; outputs := ValTensor <$> outs |}.

(** A slice of a contiguous 3-D input [t3] on its last dimension: the
    root dimensions 24, 25, 26 of the output [s3] map to its rfactor
    dimensions 24, 25, 27, the last one through a Resize. *)
Definition t3 := tensor 10 [dim 21; dim 22; dim 23] true false.

Definition s3 : TensorView :=
  {| tv_name := 11; getRootDomain := [dim 24; dim 25; dim 26];
     getMaybeRFactorDomain := [dim 24; dim 25; dim 27];
     getAllocationDomain := [];
     getContiguity := [Some true; Some true; Some true];
     isFusionInput := false; isFusionOutput := true |}.

(** A slice of a contiguous 2-D input [t2] on its last dimension down to
    extent one: the rfactor dimension 35 of the output [s2] is a broadcast
    produced by a Resize. *)
Definition t2 := tensor 12 [dim 31; dim 32] true false.

Definition s2 : TensorView :=
  {| tv_name := 13; getRootDomain := [dim 33; dim 34];
     getMaybeRFactorDomain := [dim 33; bcast 35];
     getAllocationDomain := [];
     getContiguity := [Some true; None];
     isFusionInput := false; isFusionOutput := true |}.

(** A reduction output [t4], with a reduction dimension in its logical
    domain, and a slice [s4] of it on its last dimension. *)
Definition red (n : positive) : IterDomain :=
  {| id_name := n; isReduction := true; isBroadcast := false;
     hasExpandedExtent := false |}.

Definition t4 : TensorView :=
  {| tv_name := 14; getRootDomain := [red 41; dim 42; dim 43];
     getMaybeRFactorDomain := [red 41; dim 42; dim 43];
     getAllocationDomain := [];
     getContiguity := [None; Some true; Some true];
     isFusionInput := false; isFusionOutput := false |}.

Definition s4 : TensorView :=
  {| tv_name := 15; getRootDomain := [dim 44; dim 45];
     getMaybeRFactorDomain := [dim 44; dim 46];
     getAllocationDomain := [];
     getContiguity := [Some true; Some true];
     isFusionInput := false; isFusionOutput := true |}.

(** The same with a non-contiguous middle dimension in the input. *)
Definition t5 : TensorView :=
  {| tv_name := 18; getRootDomain := [red 71; dim 72; dim 73];
     getMaybeRFactorDomain := [red 71; dim 72; dim 73];
     getAllocationDomain := [];
     getContiguity := [None; Some false; Some true];
     isFusionInput := false; isFusionOutput := false |}.

Definition s5 : TensorView :=
  {| tv_name := 19; getRootDomain := [dim 74; dim 75];
     getMaybeRFactorDomain := [dim 74; dim 76];
     getAllocationDomain := [];
     getContiguity := [Some true; Some true];
     isFusionInput := false; isFusionOutput := true |}.

(** A view of [t3] that merges its first and last dimensions, which are not
    neighbours, and a view that merges its first two dimensions. *)
Definition v3 : TensorView :=
  {| tv_name := 16; getRootDomain := [dim 51; dim 52; dim 53];
     getMaybeRFactorDomain := [dim 54; dim 52];
     getAllocationDomain := [];
     getContiguity := [Some true; Some true];
     isFusionInput := false; isFusionOutput := true |}.

Definition w3 : TensorView :=
  {| tv_name := 17; getRootDomain := [dim 61; dim 62; dim 63];
     getMaybeRFactorDomain := [dim 64; dim 63];
     getAllocationDomain := [];
     getContiguity := [Some true; Some true];
     isFusionInput := false; isFusionOutput := true |}.

(** The fusion made of the slice of [t3] alone. *)
Definition fusion_slice : Fusion :=
  {| exprs := [SliceOp t3 s3]; outputs := [ValTensor s3] |}.

(** The pairwise map between the root domains of these tensors, as a list
    of (producer dimension, consumer dimension). *)
Definition pairs : list (IterDomain * IterDomain) :=
  [(dim 21, dim 24); (dim 22, dim 25); (dim 23, dim 26);
   (dim 31, dim 33); (dim 32, dim 34);
   (dim 42, dim 44); (dim 43, dim 45);
   (dim 72, dim 74); (dim 73, dim 75)].

Definition view_pairs (out : TensorView) : list (IterDomain * IterDomain) :=
  if decide (out = v3)
  then [(dim 21, dim 51); (dim 22, dim 52); (dim 23, dim 53)]
  else if decide (out = w3)
  then [(dim 21, dim 61); (dim 22, dim 62); (dim 23, dim 63)]
  else pairs.

Definition lookup_pair (l : list (IterDomain * IterDomain))
    (id : IterDomain) : option IterDomain :=
  match list_find (λ p, p.1 = id) l with
  | Some (_, (_, c)) => Some c
  | None => None
  end.

Definition p2c (inp out : TensorView) (id : IterDomain) : option IterDomain :=
  lookup_pair (view_pairs out) id.

Definition c2p (inp out : TensorView) (id : IterDomain) : option IterDomain :=
  lookup_pair (prod_swap <$> view_pairs out) id.

(** The expressions between the root domains and the other dimensions. *)
Definition between (from to : list IterDomain) : list IdExpr :=
  (if bool_decide (dim 27 ∈ to) then [Resize (dim 26) (dim 27)] else []) ++
  (if bool_decide (bcast 35 ∈ to) then [Resize (dim 34) (bcast 35)] else []) ++
  (if bool_decide (dim 46 ∈ to) then [Resize (dim 45) (dim 46)] else []) ++
  (if bool_decide (dim 76 ∈ to) then [Resize (dim 75) (dim 76)] else []) ++
  (if bool_decide (dim 54 ∈ to) then [Merge (dim 51) (dim 53) (dim 54)]
   else []) ++
  (if bool_decide (dim 64 ∈ to) then [Merge (dim 61) (dim 62) (dim 64)]
   else []).

(** A broadcast of [t3] whose output [b4] has a new last dimension. *)
Definition b4 : TensorView :=
  {| tv_name := 20; getRootDomain := [dim 24; dim 25; dim 26; bcast 28];
     getMaybeRFactorDomain := [dim 24; dim 25; dim 26; bcast 28];
     getAllocationDomain := [];
     getContiguity := [Some true; Some true; Some true; None];
     isFusionInput := false; isFusionOutput := true |}.

(** A graph input [q3] with a broadcast dimension in the middle, which the
    pairwise map leaves without an image, and the output [q2] of its
    squeeze. *)
Definition q3 : TensorView :=
  {| tv_name := 21; getRootDomain := [dim 21; bcast 29; dim 22];
     getMaybeRFactorDomain := [dim 21; bcast 29; dim 22];
     getAllocationDomain := [];
     getContiguity := [Some true; None; Some false];
     isFusionInput := true; isFusionOutput := false |}.

Definition q2 : TensorView :=
  {| tv_name := 22; getRootDomain := [dim 24; dim 25];
     getMaybeRFactorDomain := [dim 24; dim 25];
     getAllocationDomain := [];
     getContiguity := [Some true; Some false];
     isFusionInput := false; isFusionOutput := true |}.

(** A view [u3] of [t2] that splits its last dimension: the root dimension
    34 of the output becomes the rfactor dimensions 36 and 37. *)
Definition u3 : TensorView :=
  {| tv_name := 23; getRootDomain := [dim 33; dim 34];
     getMaybeRFactorDomain := [dim 33; dim 36; dim 37];
     getAllocationDomain := [];
     getContiguity := [Some true; Some true; Some true];
     isFusionInput := false; isFusionOutput := true |}.

Definition split_between (from to : list IterDomain) : list IdExpr :=
  if bool_decide (dim 36 ∈ to) then [Split (dim 34) (dim 36) (dim 37)]
  else [].

(** A view [r2] of [t2] that reshapes nothing. *)
Definition r2 := tensor 24 [dim 33; dim 34] false true.

(** A slice [o2] of [t2] on its first dimension: the root dimension 33 of
    the output becomes the rfactor dimension 38 through a Resize. *)
Definition o2 : TensorView :=
  {| tv_name := 25; getRootDomain := [dim 33; dim 34];
     getMaybeRFactorDomain := [dim 38; dim 34];
     getAllocationDomain := [];
     getContiguity := [Some true; Some true];
     isFusionInput := false; isFusionOutput := true |}.

Definition outer_between (from to : list IterDomain) : list IdExpr :=
  if bool_decide (dim 38 ∈ to) then [Resize (dim 33) (dim 38)] else [].
End Ex.

(** * Theorems *)

(** ** The error monad *)

Lemma bind_Ok {A B} (r : res A) (f : A → res B) (b : B) :
  r ≫= f = Ok b ↔ ∃ a, r = Ok a ∧ f a = Ok b.
Proof.
  destruct r as [a|e]; simpl; split.
  - eauto.
  - by intros (a' & [= ->] & ?).
  - done.
  - by intros (? & ? & ?).
Qed.

Lemma at_index_Ok {A} (v : list A) i a : at_index v i = Ok a ↔ v !! i = Some a.
Proof. unfold at_index. destruct (v !! i); naive_solver. Qed.

Lemma at_index_lt {A} (v : list A) i :
  i < length v → ∃ a, at_index v i = Ok a ∧ v !! i = Some a.
Proof.
  intros Hi. destruct (lookup_lt_is_Some_2 v i Hi) as [a Ha].
  exists a. by rewrite at_index_Ok.
Qed.

(** Inversion of a successful bind in a hypothesis. *)
Ltac inv_bind H :=
  let a := fresh "a" in
  let Ha := fresh "Ha" in
  apply bind_Ok in H; destruct H as (a & Ha & H).

(** ** Contiguity of a split and of a merge *)

(** C1: [mergeContiguity] follows the documented case table.  A side with
    unknown contiguity and no expanded extent makes the merge allowed with
    the other side's contiguity; when no side is of that kind, two expanded
    dimensions give (true, nullopt), exactly one expanded dimension gives
    (false, nullopt), and with no expanded dimension the outer contiguity
    is known: true gives (true, inner contiguity) and false gives
    (false, nullopt).  No case reads an empty optional. *)
Theorem mergeContiguity_case_table
    (outer_id inner_id : IterDomain) (oc ic : contig) :
  (unknown_unexpanded outer_id oc →
     mergeContiguity outer_id oc inner_id ic = Ok (true, ic)) ∧
  (unknown_unexpanded inner_id ic →
     mergeContiguity outer_id oc inner_id ic = Ok (true, oc)) ∧
  (¬ unknown_unexpanded outer_id oc → ¬ unknown_unexpanded inner_id ic →
     (hasExpandedExtent outer_id = true ∧ hasExpandedExtent inner_id = true →
        mergeContiguity outer_id oc inner_id ic = Ok (true, None)) ∧
     (hasExpandedExtent outer_id ≠ hasExpandedExtent inner_id →
        mergeContiguity outer_id oc inner_id ic = Ok (false, None)) ∧
     (hasExpandedExtent outer_id = false ∧ hasExpandedExtent inner_id = false →
        (oc = Some true →
           mergeContiguity outer_id oc inner_id ic = Ok (true, ic)) ∧
        (oc = Some false →
           mergeContiguity outer_id oc inner_id ic = Ok (false, None)) ∧
        oc ≠ None)).
Proof.
  unfold unknown_unexpanded, mergeContiguity.
  destruct oc as [[]|], ic as [[]|],
    (hasExpandedExtent outer_id), (hasExpandedExtent inner_id);
    simpl; naive_solver.
Qed.

Lemma mergeContiguity_case_table_witness :
  mergeContiguity (Ex.bcast 1) None (Ex.dim 2) (Some false)
    = Ok (true, Some false) ∧
  mergeContiguity (Ex.dim 1) (Some true) (Ex.dim 2) (Some false)
    = Ok (true, Some false) ∧
  mergeContiguity (Ex.expanded 1) None (Ex.dim 2) (Some true)
    = Ok (false, None).
Proof.
  split; [|split].
  - apply (proj1 (mergeContiguity_case_table
                    (Ex.bcast 1) (Ex.dim 2) None (Some false))).
    split; reflexivity.
  - destruct (mergeContiguity_case_table
                (Ex.dim 1) (Ex.dim 2) (Some true) (Some false))
      as (_ & _ & H).
    destruct H as (_ & _ & H);
      [intros [? _]; discriminate | intros [? _]; discriminate |].
    apply H; [split; reflexivity | reflexivity].
  - destruct (mergeContiguity_case_table
                (Ex.expanded 1) (Ex.dim 2) None (Some true))
      as (_ & _ & H).
    destruct H as (_ & H & _);
      [intros [_ ?]; discriminate | intros [? _]; discriminate |].
    apply H. discriminate.
Defined.

(** The merge never reads an empty optional and never fails. *)
Lemma mergeContiguity_total outer_id oc inner_id ic :
  ∃ r, mergeContiguity outer_id oc inner_id ic = Ok r.
Proof.
  unfold mergeContiguity.
  destruct oc as [[]|], ic as [[]|],
    (hasExpandedExtent outer_id), (hasExpandedExtent inner_id);
    simpl; eauto.
Qed.


(** C7, as stated, fails: the two children of a split of a contiguous
    dimension do not merge back when the outer dimension has an expanded
    extent. *)
Lemma split_merge_roundtrip_expanded_fails :
  mergeContiguity (Ex.expanded 1) (splitContiguity (Some true)).1
                  (Ex.dim 2) (splitContiguity (Some true)).2
    = Ok (false, None) ∧
  mergeContiguity (Ex.expanded 1) (splitContiguity (Some true)).1
                  (Ex.dim 2) (splitContiguity (Some true)).2
    ≠ Ok (true, Some true).
Proof. split; [reflexivity | discriminate]. Qed.

(** C7, amended: merging back the two children that [splitContiguity c]
    produces yields (mergeable, [c]) exactly when [c] is unknown or neither
    dimension has an expanded extent. *)
Theorem split_merge_roundtrip (outer_id inner_id : IterDomain) (c : contig) :
  mergeContiguity outer_id (splitContiguity c).1
                  inner_id (splitContiguity c).2 = Ok (true, c)
  ↔ c = None ∨
    (hasExpandedExtent outer_id = false ∧ hasExpandedExtent inner_id = false).
Proof.
  unfold mergeContiguity, splitContiguity.
  destruct c as [[]|],
    (hasExpandedExtent outer_id), (hasExpandedExtent inner_id);
    simpl; naive_solver.
Qed.

Lemma split_merge_roundtrip_witness :
  mergeContiguity (Ex.dim 1) (splitContiguity (Some false)).1
                  (Ex.dim 2) (splitContiguity (Some false)).2
    = Ok (true, Some false).
Proof.
  apply (proj2 (split_merge_roundtrip (Ex.dim 1) (Ex.dim 2) (Some false))).
  right. split; reflexivity.
Defined.

(** ** Registering aliases *)

Lemma add_Ok alias source layout st st' :
  add alias source layout st = Ok st' ↔
  alias_to_source_ st !! alias = None ∧
  st' = {| alias_to_source_ :=
             <[alias := (source, layout)]> (alias_to_source_ st);
           out_to_root_ := out_to_root_ st |}.
Proof.
  unfold add. destruct (alias_to_source_ st !! alias); naive_solver.
Qed.

Lemma add_all_spec l : ∀ st st',
  add_all l st = Ok st' →
  NoDup l.*1.*1 ∧
  (∀ a, a ∈ l.*1.*1 → alias_to_source_ st !! a = None) ∧
  (∀ a s L, (a, s, L) ∈ l → alias_to_source_ st' !! a = Some (s, L)) ∧
  (∀ a, a ∉ l.*1.*1 → alias_to_source_ st' !! a = alias_to_source_ st !! a) ∧
  out_to_root_ st' = out_to_root_ st.
Proof.
  induction l as [|[[a0 s0] L0] l IH]; intros st st' H; simpl in *.
  - injection H as <-. split_and!; try done.
    + constructor.
    + intros a Ha. by apply elem_of_nil in Ha.
    + intros a s L Ha. by apply elem_of_nil in Ha.
  - inv_bind H. apply add_Ok in Ha as [Hfree ->].
    destruct (IH _ _ H) as (Hnd & Hfresh & Hin & Hout & Hroot); simpl in *.
    assert (Ha0 : a0 ∉ l.*1.*1).
    { intros Hel. specialize (Hfresh _ Hel).
      by rewrite lookup_insert_eq in Hfresh. }
    split_and!.
    + by constructor.
    + intros a [->|Hel]%elem_of_cons; [done|].
      specialize (Hfresh _ Hel).
      rewrite lookup_insert in Hfresh. by case_decide.
    + intros a s L [[= -> -> ->]|Hel]%elem_of_cons.
      * rewrite (Hout _ Ha0). apply lookup_insert_eq.
      * by apply Hin.
    + intros a Ha. apply not_elem_of_cons in Ha as [Hne Ha].
      rewrite (Hout _ Ha). by apply lookup_insert_ne.
    + done.
Qed.

Lemma add_all_Ok l : ∀ st,
  NoDup l.*1.*1 →
  (∀ a, a ∈ l.*1.*1 → alias_to_source_ st !! a = None) →
  ∃ st', add_all l st = Ok st'.
Proof.
  induction l as [|[[a0 s0] L0] l IH]; intros st Hnd Hfresh; simpl in *.
  - eauto.
  - apply NoDup_cons in Hnd as [Ha0 Hnd].
    unfold add at 1. rewrite (Hfresh a0) by apply list_elem_of_here. simpl.
    apply IH; [done|]. intros a Ha; simpl.
    rewrite lookup_insert_ne by (intros ->; done).
    apply Hfresh. by apply list_elem_of_further.
Qed.

(** C3, as stated, fails: registering the source that is already registered
    for the alias is a fatal error too, although no different source is
    registered. *)
Lemma add_same_source_is_fatal :
  alias_to_source_ Ex.st_chain !! Ex.tA = Some (Ex.tB, Ex.layout_of Ex.tA) ∧
  add Ex.tA Ex.tB (Ex.layout_of Ex.tA) Ex.st_chain = Err NvfError ∧
  ¬ (is_err (add Ex.tA Ex.tB (Ex.layout_of Ex.tA) Ex.st_chain) ↔
     ∃ s L, alias_to_source_ Ex.st_chain !! Ex.tA = Some (s, L) ∧ s ≠ Ex.tB).
Proof.
  assert (H1 : alias_to_source_ Ex.st_chain !! Ex.tA
               = Some (Ex.tB, Ex.layout_of Ex.tA)) by (vm_compute; reflexivity).
  assert (H2 : add Ex.tA Ex.tB (Ex.layout_of Ex.tA) Ex.st_chain = Err NvfError).
  { unfold add. by rewrite H1. }
  split_and!; [done | done |].
  intros [Himp _]. destruct Himp as (s & L & Hs & Hne).
  - rewrite H2. by eexists.
  - rewrite H1 in Hs. injection Hs as <- _. by apply Hne.
Qed.

(** C3, amended: [add] raises a fatal error exactly when the alias already
    has a registered source, the same one or another; otherwise it inserts
    the (source, layout) pair and leaves [out_to_root_] alone.  A sequence
    of adds that succeeds, started from the empty result, registered
    pairwise different aliases, and the final map holds exactly the
    registered (source, layout) of each. *)
Theorem add_single_source (alias source : TensorView) (layout : Layout)
    (st : AliasAnalysisResult) :
  (is_err (add alias source layout st) ↔
     is_Some (alias_to_source_ st !! alias)) ∧
  (alias_to_source_ st !! alias = None →
     add alias source layout st =
       Ok {| alias_to_source_ :=
               <[alias := (source, layout)]> (alias_to_source_ st);
             out_to_root_ := out_to_root_ st |}) ∧
  (∀ l st', add_all l empty_analysis = Ok st' →
     NoDup l.*1.*1 ∧
     ∀ a s L, alias_to_source_ st' !! a = Some (s, L) ↔ (a, s, L) ∈ l).
Proof.
  split_and!.
  - unfold add, is_err.
    destruct (alias_to_source_ st !! alias) as [p|]; split.
    + by eexists.
    + intros _. by eexists.
    + by intros [e ?].
    + by intros [? ?].
  - intros H. unfold add. by rewrite H.
  - intros l st' H.
    destruct (add_all_spec _ _ _ H) as (Hnd & _ & Hin & Hout & _).
    split; [done|]. intros a s L. split; [|apply Hin].
    intros Hl. destruct (decide (a ∈ l.*1.*1)) as [Hel|Hel].
    + apply list_elem_of_fmap in Hel as ([a' s'] & Heq & Hel).
      apply list_elem_of_fmap in Hel as ([[a'' s''] L'] & Heq' & Hel).
      simpl in *. simplify_eq/=.
      rewrite (Hin _ _ _ Hel) in Hl. by simplify_eq.
    + rewrite (Hout _ Hel) in Hl. simpl in Hl. by rewrite lookup_empty in Hl.
Qed.

Lemma add_single_source_witness :
  add Ex.tA Ex.tB (Ex.layout_of Ex.tA) empty_analysis =
    Ok {| alias_to_source_ :=
            <[Ex.tA := (Ex.tB, Ex.layout_of Ex.tA)]> ∅;
          out_to_root_ := ∅ |} ∧
  NoDup [Ex.tA].
Proof.
  pose proof (add_single_source Ex.tA Ex.tB (Ex.layout_of Ex.tA)
                empty_analysis) as (_ & Hadd & Hall).
  assert (Hfree : alias_to_source_ empty_analysis !! Ex.tA = None)
    by apply lookup_empty.
  split.
  - apply Hadd, Hfree.
  - refine (proj1 (Hall [(Ex.tA, Ex.tB, Ex.layout_of Ex.tA)] _ _)).
    simpl. rewrite (Hadd Hfree). reflexivity.
Defined.

(** ** The chain walk *)

Lemma findNearestAliasedIo_S fuel st t :
  findNearestAliasedIo (S fuel) st t =
    match source_of st t with
    | None => Ok None
    | Some root =>
        if is_io root then Ok (Some root)
        else findNearestAliasedIo fuel st root
    end.
Proof.
  simpl. destruct (source_of st t) as [root|]; [|done].
  unfold is_io. by destruct (isFusionInput root), (isFusionOutput root).
Qed.

Arguments findNearestAliasedIo : simpl never.

Lemma source_of_None st t :
  source_of st t = None ↔ alias_to_source_ st !! t = None.
Proof.
  unfold source_of. destruct (alias_to_source_ st !! t) as [[??]|]; naive_solver.
Qed.

Lemma source_of_Some st t s :
  source_of st t = Some s ↔ ∃ L, alias_to_source_ st !! t = Some (s, L).
Proof.
  unfold source_of. destruct (alias_to_source_ st !! t) as [[??]|]; naive_solver.
Qed.

(** The walk only ever returns a graph input or output. *)
Lemma findNearestAliasedIo_is_io fuel : ∀ st t r,
  findNearestAliasedIo fuel st t = Ok (Some r) → is_io r = true.
Proof.
  induction fuel as [|fuel IH]; intros st t r H; [done|].
  rewrite findNearestAliasedIo_S in H.
  destruct (source_of st t) as [root|]; [|done].
  destruct (is_io root) eqn:Hio; [by simplify_eq | eauto].
Qed.

(** More fuel does not change a result. *)
Lemma findNearestAliasedIo_mono fuel : ∀ fuel' st t r,
  findNearestAliasedIo fuel st t = Ok r → fuel ≤ fuel' →
  findNearestAliasedIo fuel' st t = Ok r.
Proof.
  induction fuel as [|fuel IH]; intros fuel' st t r H Hle; [done|].
  destruct fuel' as [|fuel']; [lia|].
  rewrite findNearestAliasedIo_S in H |- *.
  destruct (source_of st t) as [root|]; [|done].
  destruct (is_io root); [done|]. apply IH; [done | lia].
Qed.

(** The walk skips the hidden tensors of a chain. *)
Lemma findNearestAliasedIo_via st t mids r :
  aliases_via st t mids r → ∀ fuel,
  findNearestAliasedIo (S (length mids) + fuel) st t =
    if is_io r then Ok (Some r) else findNearestAliasedIo fuel st r.
Proof.
  induction 1 as [t r Hs | t s mids r Hs Hio _ IH]; intros fuel.
  - change (S (length []) + fuel) with (S fuel).
    by rewrite findNearestAliasedIo_S, Hs.
  - change (S (length (s :: mids)) + fuel) with (S (S (length mids) + fuel)).
    by rewrite findNearestAliasedIo_S, Hs, Hio, IH.
Qed.

Lemma findNearestAliasedIo_ext fuel st1 st2 : ∀ t,
  alias_to_source_ st1 = alias_to_source_ st2 →
  findNearestAliasedIo fuel st1 t = findNearestAliasedIo fuel st2 t.
Proof.
  intros t Heq. revert t.
  induction fuel as [|fuel IH]; intros t; [done|].
  rewrite !findNearestAliasedIo_S. unfold source_of. rewrite Heq.
  destruct (alias_to_source_ st2 !! t) as [[root ?]|]; [|done].
  by rewrite IH.
Qed.

(** In a result built over a DAG every source precedes its alias in some
    order; the walk then descends, so it cannot come back to the tensor it
    started from. *)
Lemma findNearestAliasedIo_descends (rank : TensorView → nat) st :
  (∀ t s L, alias_to_source_ st !! t = Some (s, L) → rank s < rank t) →
  ∀ fuel t r, findNearestAliasedIo fuel st t = Ok (Some r) → rank r < rank t.
Proof.
  intros Hrank fuel.
  induction fuel as [|fuel IH]; intros t r H; [done|].
  rewrite findNearestAliasedIo_S in H.
  destruct (source_of st t) as [root|] eqn:Hs; [|done].
  apply source_of_Some in Hs as [L HL]. apply Hrank in HL.
  destruct (is_io root).
  - by simplify_eq.
  - apply IH in H. lia.
Qed.

(** ** Finalize *)

Lemma finalize_decision_ext fuel flag st1 st2 t :
  alias_to_source_ st1 = alias_to_source_ st2 →
  finalize_decision fuel flag st1 t = finalize_decision fuel flag st2 t.
Proof.
  intros Heq. unfold finalize_decision, preferredLayout.
  by rewrite (findNearestAliasedIo_ext fuel st1 st2 t Heq), Heq.
Qed.

Lemma finalize_loop_cons fuel flag out outs st :
  finalize_loop fuel flag (out :: outs) st =
    d ← finalize_decision fuel flag st out;
    finalize_loop fuel flag outs
      match d with
      | None => st
      | Some root =>
          {| alias_to_source_ := alias_to_source_ st;
             out_to_root_ := <[out := root]> (out_to_root_ st) |}
      end.
Proof.
  simpl. unfold finalize_decision.
  destruct (findNearestAliasedIo fuel st out) as [[root|]|]; simpl; try done.
  destruct (preferredLayout st (ValTensor out)) as [L|]; simpl; [|done].
  by destruct (okToRelayout out L flag) as [[]|].
Qed.

(** [finalize] returns as soon as the decision is defined for every output;
    it leaves [alias_to_source_] alone and records, for a tensor among the
    outputs, exactly the decided root. *)
Lemma finalize_loop_spec fuel flag outs : ∀ st,
  (∀ out, out ∈ outs → ∃ d, finalize_decision fuel flag st out = Ok d) →
  ∃ st', finalize_loop fuel flag outs st = Ok st' ∧
    alias_to_source_ st' = alias_to_source_ st ∧
    ∀ t, out_to_root_ st' !! t =
      match finalize_decision fuel flag st t with
      | Ok (Some root) =>
          if decide (t ∈ outs) then Some root else out_to_root_ st !! t
      | _ => out_to_root_ st !! t
      end.
Proof.
  induction outs as [|out outs IH]; intros st Hdef.
  - exists st. split_and!; [done | done |]. intros t.
    by destruct (finalize_decision fuel flag st t) as [[root|]|].
  - rewrite finalize_loop_cons.
    destruct (Hdef out) as [d Hd]; [apply list_elem_of_here|].
    rewrite Hd. simpl.
    set (st1 := match d with None => st | Some root => _ end).
    assert (Halias : alias_to_source_ st1 = alias_to_source_ st)
      by (subst st1; by destruct d).
    destruct (IH st1) as (st' & Hrun & Halias' & Hroots).
    { intros o Ho. rewrite (finalize_decision_ext _ _ _ _ _ Halias).
      apply Hdef. by apply list_elem_of_further. }
    exists st'. split_and!; [done | congruence |].
    intros t. rewrite Hroots, (finalize_decision_ext _ _ _ _ _ Halias).
    destruct (decide (t = out)) as [->|Hne].
    + rewrite Hd. subst st1. destruct d as [root|]; simpl.
      * rewrite lookup_insert_eq.
        rewrite (decide_True (P := out ∈ out :: outs))
          by apply list_elem_of_here.
        by case_decide.
      * done.
    + assert (Hst1 : out_to_root_ st1 !! t = out_to_root_ st !! t).
      { subst st1. destruct d; simpl; [by rewrite lookup_insert_ne | done]. }
      rewrite Hst1.
      destruct (finalize_decision fuel flag st t) as [[root|]|]; try done.
      destruct (decide (t ∈ outs)) as [Hel|Hel].
      * rewrite decide_True; [done | by apply list_elem_of_further].
      * rewrite decide_False; [done|].
        intros [?|?]%elem_of_cons; done.
Qed.

Lemma filterByType_TensorView_elem (vs : list Val) (t : TensorView) :
  t ∈ filterByType_TensorView vs ↔ ValTensor t ∈ vs.
Proof.
  unfold filterByType_TensorView. rewrite list_elem_of_omap. split.
  - intros ([t'|n] & Hel & Hv); simpl in *; by simplify_eq.
  - intros Hel. by exists (ValTensor t).
Qed.

Lemma finalize_loop_defined fuel flag outs : ∀ st st',
  finalize_loop fuel flag outs st = Ok st' →
  ∀ out, out ∈ outs → ∃ d, finalize_decision fuel flag st out = Ok d.
Proof.
  induction outs as [|o outs IH]; intros st st' H out Hel.
  - by apply elem_of_nil in Hel.
  - rewrite finalize_loop_cons in H. inv_bind H.
    apply elem_of_cons in Hel as [->|Hel]; [eauto|].
    destruct (IH _ _ H out Hel) as [d Hd]. exists d. rewrite <- Hd.
    apply finalize_decision_ext. by destruct a.
Qed.

Lemma finalize_alias_to_source fuel fusion flag st st' :
  finalize fuel fusion flag st = Ok st' →
  alias_to_source_ st' = alias_to_source_ st.
Proof.
  intros Hrun. unfold finalize in Hrun.
  destruct (finalize_loop_spec fuel flag
              (filterByType_TensorView (outputs fusion)) st)
    as (st'' & Hrun' & Halias & _).
  { by eapply finalize_loop_defined. }
  rewrite Hrun in Hrun'. by injection Hrun' as <-.
Qed.

Lemma compliant_loop_total range (a r : list contig) :
  (∀ i, i ∈ range → i < length a ∧ i < length r) →
  ∃ b, compliant_loop range a r = Ok b.
Proof.
  induction range as [|i range IH]; intros Hlt; simpl; [eauto|].
  destruct (Hlt i) as [Ha Hr]; [apply list_elem_of_here|].
  destruct (at_index_lt a i Ha) as (x & -> & _).
  destruct (at_index_lt r i Hr) as (y & -> & _). simpl.
  destruct (contiguityIsCompliant x y); simpl; [|eauto].
  apply IH. intros j Hj. apply Hlt. by apply list_elem_of_further.
Qed.

Lemma isCompliantWith_total (self required : Layout) :
  layout_wf self →
  (allocation_domain required ≠ [] → layout_wf required) →
  ∃ b, isCompliantWith self required = Ok b.
Proof.
  unfold isCompliantWith, layout_wf. intros Hself Hreq.
  case_bool_decide as Hempty; [eauto|].
  case_bool_decide as Hne; [eauto|].
  apply compliant_loop_total.
  intros i Hi%elem_of_seq. specialize (Hreq Hempty).
  rewrite <- Hself, <- Hreq, <- Hne. lia.
Qed.

Lemma okToRelayout_total out L flag :
  layout_wf L → tensor_wf out → ∃ b, okToRelayout out L flag = Ok b.
Proof.
  intros HL Hout. apply isCompliantWith_total; [done|].
  unfold layout_wf, tensor_wf, getMaybeAllocationDomain in *. simpl.
  destruct flag; [|done].
  intros Hne. by rewrite bool_decide_eq_false_2 in Hout.
Qed.

(** C10: a tensor without an entry in [alias_to_source_] has no root,
    whether or not it is a graph input or output: the walk looks up its
    argument first and returns null at once, never the argument itself;
    [finalize] passes over such an output and never records a root for
    it.  When every registered source precedes its alias in some order, as
    over a DAG, the walk returns its argument for no tensor at all. *)
Theorem findNearestAliasedIo_no_entry (st : AliasAnalysisResult)
    (t : TensorView) :
  alias_to_source_ st !! t = None →
  (∀ fuel, findNearestAliasedIo (S fuel) st t = Ok None) ∧
  (∀ fuel, findNearestAliasedIo fuel st t ≠ Ok (Some t)) ∧
  (∀ fuel flag outs,
     finalize_loop (S fuel) flag (t :: outs) st =
     finalize_loop (S fuel) flag outs st) ∧
  (∀ fuel flag fusion st',
     finalize fuel fusion flag st = Ok st' →
     out_to_root_ st' !! t = out_to_root_ st !! t) ∧
  (∀ rank : TensorView → nat,
     (∀ a s L, alias_to_source_ st !! a = Some (s, L) → rank s < rank a) →
     ∀ fuel a, findNearestAliasedIo fuel st a ≠ Ok (Some a)).
Proof.
  intros Hnone.
  assert (Hwalk : ∀ fuel, findNearestAliasedIo (S fuel) st t = Ok None).
  { intros fuel. rewrite findNearestAliasedIo_S.
    by rewrite (proj2 (source_of_None st t) Hnone). }
  split_and!.
  - done.
  - intros [|fuel]; [done|]. by rewrite Hwalk.
  - intros fuel flag outs. rewrite finalize_loop_cons.
    unfold finalize_decision. by rewrite Hwalk.
  - intros fuel flag fusion st' Hrun. unfold finalize in Hrun.
    destruct (finalize_loop_spec fuel flag
                (filterByType_TensorView (outputs fusion)) st)
      as (st'' & Hrun' & _ & Hroots).
    { by eapply finalize_loop_defined. }
    rewrite Hrun in Hrun'. injection Hrun' as <-. rewrite Hroots.
    unfold finalize_decision. destruct fuel as [|fuel]; [done|].
    by rewrite Hwalk.
  - intros rank Hrank fuel a Ha.
    apply (findNearestAliasedIo_descends rank st Hrank) in Ha. lia.
Qed.

Lemma findNearestAliasedIo_no_entry_witness :
  is_io Ex.tC = true ∧
  findNearestAliasedIo 1 Ex.st_chain Ex.tC = Ok None.
Proof.
  split; [reflexivity|].
  apply (findNearestAliasedIo_no_entry Ex.st_chain Ex.tC).
  vm_compute. reflexivity.
Defined.

(** C5, as stated, fails: when the chain ends in a tensor that has no
    further source but is not a graph input or output, the walk returns
    null, not that tensor. *)
Lemma chain_end_hidden_gives_null :
  source_of Ex.st_hidden Ex.tA = Some Ex.tB ∧
  source_of Ex.st_hidden Ex.tB = Some Ex.tC' ∧
  source_of Ex.st_hidden Ex.tC' = None ∧
  is_io Ex.tB = false ∧
  findNearestAliasedIo 3 Ex.st_hidden Ex.tA = Ok None ∧
  findNearestAliasedIo 3 Ex.st_hidden Ex.tA ≠ Ok (Some Ex.tC').
Proof.
  assert (H : findNearestAliasedIo 3 Ex.st_hidden Ex.tA = Ok None)
    by (vm_compute; reflexivity).
  split_and!; try (vm_compute; reflexivity).
  rewrite H. discriminate.
Qed.

(** C5, amended: with [A] registered as an alias of [B], [B] as an alias of
    [C], and [B] neither a graph input nor a graph output, the walk from [A]
    never resolves to [B].  It resolves to [C] when [C] is a graph input or
    output; otherwise it goes on from [C], and ends in null when [C] has no
    source.  In general it resolves to the first graph input or output
    along the chain.  After [finalize], [getNearestAliasedIo] gives the same
    root for an output [A] whose registered layout passes the check. *)
Theorem alias_resolution_transitive (st : AliasAnalysisResult)
    (A B C : TensorView) (LA LB : Layout) :
  alias_to_source_ st !! A = Some (B, LA) →
  alias_to_source_ st !! B = Some (C, LB) →
  is_io B = false →
  (is_io C = true →
     ∀ fuel, findNearestAliasedIo (2 + fuel) st A = Ok (Some C)) ∧
  (is_io C = false →
     ∀ fuel, findNearestAliasedIo (2 + fuel) st A
             = findNearestAliasedIo fuel st C) ∧
  (is_io C = false → alias_to_source_ st !! C = None →
     ∀ fuel, findNearestAliasedIo (3 + fuel) st A = Ok None) ∧
  (∀ fuel, findNearestAliasedIo fuel st A ≠ Ok (Some B)) ∧
  (∀ t mids r fuel,
     aliases_via st t mids r → is_io r = true →
     findNearestAliasedIo (S (length mids) + fuel) st t = Ok (Some r)) ∧
  (is_io C = true →
     ∀ fuel flag fusion,
       ValTensor A ∈ outputs fusion →
       (∀ out, ValTensor out ∈ outputs fusion →
               ∃ d, finalize_decision (2 + fuel) flag st out = Ok d) →
       okToRelayout A LA flag = Ok true →
       ∃ st', finalize (2 + fuel) fusion flag st = Ok st' ∧
              getNearestAliasedIo st' A = Some C).
Proof.
  intros HA HB HioB.
  assert (Hvia : aliases_via st A [B] C).
  { apply via_step; [apply source_of_Some; eauto | done |].
    apply via_direct, source_of_Some; eauto. }
  assert (Hwalk : ∀ fuel, findNearestAliasedIo (2 + fuel) st A =
                    if is_io C then Ok (Some C)
                    else findNearestAliasedIo fuel st C)
    by exact (findNearestAliasedIo_via _ _ _ _ Hvia).
  split_and!.
  - intros HioC fuel. by rewrite (Hwalk fuel), HioC.
  - intros HioC fuel. by rewrite (Hwalk fuel), HioC.
  - intros HioC HC fuel.
    change (3 + fuel) with (2 + S fuel). rewrite (Hwalk (S fuel)), HioC.
    rewrite findNearestAliasedIo_S.
    by rewrite (proj2 (source_of_None st C) HC).
  - intros fuel H. apply findNearestAliasedIo_is_io in H. congruence.
  - intros t mids r fuel Hv Hio.
    by rewrite (findNearestAliasedIo_via _ _ _ _ Hv fuel), Hio.
  - intros HioC fuel flag fusion Hout Hdef Hok.
    destruct (finalize_loop_spec (2 + fuel) flag
                (filterByType_TensorView (outputs fusion)) st)
      as (st' & Hrun & _ & Hroots).
    { intros out Hel. apply Hdef. by apply filterByType_TensorView_elem. }
    exists st'. split; [done|].
    unfold getNearestAliasedIo. rewrite Hroots.
    unfold finalize_decision, preferredLayout. simpl as_TensorView.
    rewrite (Hwalk fuel), HioC. simpl. rewrite HA. simpl. rewrite Hok. simpl.
    rewrite decide_True; [done|]. by apply filterByType_TensorView_elem.
Qed.

Lemma alias_resolution_transitive_witness :
  findNearestAliasedIo 2 Ex.st_chain Ex.tA = Ok (Some Ex.tC).
Proof.
  refine (proj1 (alias_resolution_transitive Ex.st_chain Ex.tA Ex.tB Ex.tC
                   (Ex.layout_of Ex.tA) (Ex.layout_of Ex.tB) _ _ _) _ 0).
  - vm_compute. reflexivity.
  - vm_compute. reflexivity.
  - reflexivity.
  - reflexivity.
Defined.

(** C2, as stated, fails: with the flag set the target is the allocation
    domain as it is, not the default domain that stands in for an empty one.
    An output whose allocation domain is empty is recorded although its
    registered layout does not comply with its default domain. *)
Lemma finalize_flag_exchanged :
  findNearestAliasedIo 1 Ex.st_permuted Ex.tP = Ok (Some Ex.tC) ∧
  (st' ← finalize 1 (Ex.fusion_of [Ex.tP]) true Ex.st_permuted;
   Ok (out_to_root_ st' !! Ex.tP)) = Ok (Some Ex.tC) ∧
  (L ← preferredLayout Ex.st_permuted (ValTensor Ex.tP);
   isCompliantWith L (documented_required_layout true Ex.tP)) = Ok false.
Proof. split_and!; vm_compute; reflexivity. Qed.

(** C2, amended: when the registered layouts and the outputs are well
    formed and the walk from every output finishes, [finalize] returns and
    leaves [alias_to_source_] as it was; an output with a transitive root
    is entered into [out_to_root_] with that root exactly when its preferred
    layout complies with the layout made of its contiguity and of its
    allocation domain as it is (possibly empty) when
    [can_override_empty_allocation_domain] is true, and of its allocation
    domain or, if that is empty, its default domain when the flag is false.
    A non-compliant candidate stays in [alias_to_source_] and is absent
    from [out_to_root_]. *)
Theorem finalize_records_compliant (fuel : nat) (flag : bool) (fusion : Fusion)
    (st : AliasAnalysisResult) :
  layouts_wf st →
  (∀ out, ValTensor out ∈ outputs fusion → tensor_wf out) →
  (∀ out, ValTensor out ∈ outputs fusion →
          ∃ r, findNearestAliasedIo fuel st out = Ok r) →
  ∃ st', finalize fuel fusion flag st = Ok st' ∧
    alias_to_source_ st' = alias_to_source_ st ∧
    ∀ out root,
      ValTensor out ∈ outputs fusion →
      findNearestAliasedIo fuel st out = Ok (Some root) →
      out_to_root_ st !! out = None →
      ∃ L b,
        preferredLayout st (ValTensor out) = Ok L ∧
        is_Some (alias_to_source_ st' !! out) ∧
        isCompliantWith L (required_layout flag out) = Ok b ∧
        out_to_root_ st' !! out = (if b then Some root else None) ∧
        (out_to_root_ st' !! out = Some root ↔
         isCompliantWith L (required_layout flag out) = Ok true).
Proof.
  intros Hlay Hwf Hwalk.
  assert (Hpref : ∀ out root,
             findNearestAliasedIo fuel st out = Ok (Some root) →
             ∃ s L, alias_to_source_ st !! out = Some (s, L) ∧
                    preferredLayout st (ValTensor out) = Ok L).
  { intros out root Hr. destruct fuel as [|fuel']; [done|].
    rewrite findNearestAliasedIo_S in Hr.
    destruct (source_of st out) as [s|] eqn:Hs; [|done].
    apply source_of_Some in Hs as [L HL]. exists s, L. split; [done|].
    unfold preferredLayout. simpl. by rewrite HL. }
  destruct (finalize_loop_spec fuel flag
              (filterByType_TensorView (outputs fusion)) st)
    as (st' & Hrun & Halias & Hroots).
  { intros out Hel%filterByType_TensorView_elem.
    unfold finalize_decision.
    destruct (Hwalk out Hel) as [[root|] Hr]; rewrite Hr; simpl; [|eauto].
    destruct (Hpref out root Hr) as (s & L & HL & ->). simpl.
    destruct (okToRelayout_total out L flag) as [b ->]; [by eapply Hlay | eauto |].
    simpl. eauto. }
  exists st'. split_and!; [done | done |].
  intros out root Hout Hr Hfresh.
  destruct (Hpref out root Hr) as (s & L & HL & HpL).
  destruct (okToRelayout_total out L flag) as [b Hb]; [by eapply Hlay | eauto |].
  exists L, b.
  assert (Hrec : out_to_root_ st' !! out = if b then Some root else None).
  { rewrite Hroots. unfold finalize_decision. rewrite Hr. simpl.
    rewrite HpL. simpl. rewrite Hb. simpl. destruct b; [|done].
    rewrite decide_True; [done|]. by apply filterByType_TensorView_elem. }
  split_and!; try done.
  - rewrite Halias, HL. by eexists.
  - rewrite Hrec. change (isCompliantWith L (required_layout flag out))
      with (okToRelayout out L flag). rewrite Hb. destruct b; naive_solver.
Qed.

Lemma fusion_of_outputs (outs : list TensorView) (out : TensorView) :
  ValTensor out ∈ outputs (Ex.fusion_of outs) ↔ out ∈ outs.
Proof. simpl. rewrite list_elem_of_fmap. naive_solver. Qed.

Lemma finalize_records_compliant_witness :
  ∃ st', finalize 2 (Ex.fusion_of [Ex.tA]) false Ex.st_chain = Ok st' ∧
         alias_to_source_ st' = alias_to_source_ Ex.st_chain.
Proof.
  destruct (finalize_records_compliant 2 false (Ex.fusion_of [Ex.tA])
              Ex.st_chain) as (st' & Hrun & Halias & _).
  - intros t s L.
    unfold Ex.st_chain, alias_to_source_.
    rewrite !lookup_insert. repeat case_decide.
    + intros [= _ <-]. reflexivity.
    + intros [= _ <-]. reflexivity.
    + by rewrite lookup_empty.
  - intros out Hel%fusion_of_outputs.
    apply list_elem_of_singleton in Hel as ->. reflexivity.
  - intros out Hel%fusion_of_outputs.
    apply list_elem_of_singleton in Hel as ->.
    exists (Some Ex.tC). vm_compute. reflexivity.
  - exists st'. split; [exact Hrun | exact Halias].
Defined.

(** ** DeviceMesh *)

Lemma std_unique_cons2 (x y : Z) (rest : list Z) :
  DeviceMesh.std_unique (x :: y :: rest) =
    if decide (x = y) then DeviceMesh.std_unique (y :: rest)
    else x :: DeviceMesh.std_unique (y :: rest).
Proof. reflexivity. Qed.

Lemma std_unique_length_le (v : list Z) :
  length (DeviceMesh.std_unique v) ≤ length v.
Proof.
  induction v as [|x [|y rest] IH]; [done | done |].
  rewrite std_unique_cons2. case_decide; simpl in *; lia.
Qed.

Lemma std_unique_NoDup (v : list Z) : NoDup v → DeviceMesh.std_unique v = v.
Proof.
  induction v as [|x [|y rest] IH]; intros Hnd; [done | done |].
  rewrite std_unique_cons2.
  apply NoDup_cons in Hnd as [Hx Hnd].
  rewrite decide_False by (intros ->; apply Hx, list_elem_of_here).
  by rewrite IH.
Qed.

(** A list without duplicates is accepted, and [vector()] returns it. *)
Lemma setDevices_NoDup (devices : list Z) :
  NoDup devices →
  DeviceMesh.setDevices devices = Ok {| DeviceMesh.vector_ := devices |}.
Proof.
  intros Hnd. unfold DeviceMesh.setDevices, DeviceMesh.unique_returns_end.
  by rewrite std_unique_NoDup, bool_decide_eq_true_2.
Qed.

(** Two equal neighbours are detected. *)
Lemma setDevices_adjacent_duplicate (l1 l2 : list Z) (x : Z) :
  DeviceMesh.setDevices (l1 ++ x :: x :: l2) = Err NvfError.
Proof.
  unfold DeviceMesh.setDevices, DeviceMesh.unique_returns_end.
  rewrite bool_decide_eq_false_2; [done|].
  assert (length (DeviceMesh.std_unique (l1 ++ x :: x :: l2))
          < length (l1 ++ x :: x :: l2)); [|lia].
  induction l1 as [|a l1 IH].
  - cbn [app]. rewrite std_unique_cons2, decide_True by done.
    pose proof (std_unique_length_le (x :: l2)). cbn [length] in *. lia.
  - destruct l1 as [|b l1]; cbn [app] in *;
      rewrite std_unique_cons2; case_decide; cbn [length] in *; lia.
Qed.

(** C9: [setDevices] does not reject every duplicate.  It looks for equal
    neighbours only, so a list whose duplicates are apart is accepted: the
    mesh built from [0; 1; 0] holds a duplicate device index, while
    [0; 0; 1] is rejected. *)
Theorem setDevices_accepts_separated_duplicate :
  DeviceMesh.make [0; 1; 0]%Z = Ok {| DeviceMesh.vector_ := [0; 1; 0]%Z |} ∧
  ¬ NoDup [0; 1; 0]%Z ∧
  DeviceMesh.make [0; 0; 1]%Z = Err NvfError.
Proof.
  split_and!; [reflexivity | | reflexivity].
  intros Hnd. apply NoDup_cons in Hnd as [Hnotin _].
  apply Hnotin. set_solver.
Qed.

(** ** The rules *)

Lemma preferredLayout_tensor st tv :
  ∃ L, preferredLayout st (ValTensor tv) = Ok L ∧
       ((∃ s, alias_to_source_ st !! tv = Some (s, L)) ∨
        (alias_to_source_ st !! tv = None ∧
         L = {| allocation_domain := getMaybeAllocationDomain tv;
                contiguity := getContiguity tv |})).
Proof.
  unfold preferredLayout. simpl.
  destruct (alias_to_source_ st !! tv) as [[s L]|]; eauto 6.
Qed.

Lemma pending_flag_snoc sets_flag init minor id :
  pending_flag sets_flag init (minor ++ [id]) =
  pending_flag sets_flag (pending_flag sets_flag init [id]) minor.
Proof.
  induction minor as [|d minor IH]; simpl in *; [done|].
  destruct (sets_flag d); [done|]. destruct (isBroadcast d); [|done].
  by rewrite IH.
Qed.

(** The flag is pending exactly when some following dimension sets it and
    only broadcast dimensions lie in between. *)
Lemma pending_flag_true sets_flag minor :
  pending_flag sets_flag false minor = true ↔
  ∃ between id rest,
    minor = between ++ id :: rest ∧ sets_flag id = true ∧
    Forall (λ d, isBroadcast d = true) between.
Proof.
  induction minor as [|d minor IH]; simpl.
  - split; [done|]. intros (b & id & rest & Heq & _).
    by destruct b.
  - destruct (sets_flag d) eqn:Hd.
    { split; [|done]. intros _. by exists [], d, minor. }
    destruct (isBroadcast d) eqn:Hb.
    + rewrite IH. split.
      * intros (b & id & rest & -> & Hid & Hall).
        exists (d :: b), id, rest. split_and!; [done | done |].
        by constructor.
      * intros (b & id & rest & Heq & Hid & Hall).
        destruct b as [|d' b]; simplify_eq/=; [congruence|].
        apply Forall_cons in Hall as [_ Hall]. by exists b, id, rest.
    + split; [done|]. intros (b & id & rest & Heq & Hid & Hall).
      destruct b as [|d' b]; simplify_eq/=; [congruence|].
      apply Forall_cons in Hall as [Hd' _]. congruence.
Qed.

Section SliceFacts.
Variable mapProducerToConsumer :
  TensorView → TensorView → IterDomain → option IterDomain.
Variable mapConsumerToProducer :
  TensorView → TensorView → IterDomain → option IterDomain.
Variable getAllExprsBetween :
  list IterDomain → list IterDomain → list IdExpr.

Local Abbreviation is_sliced' := (is_sliced getAllExprsBetween).
Local Abbreviation slice_scan' := (slice_scan getAllExprsBetween).

(** *** Slice *)

(** A scan over the first [n] allocation dimensions that returns has
    written, at every index below [n], the contiguity that [scan_contiguity]
    describes (here with any pending flag on entry). *)
Lemma slice_scan_spec out_root out_allocation in_contiguity :
  ∀ n flag out0 out,
    slice_scan' out_root out_allocation in_contiguity n flag out0 = Ok out →
    n ≤ length out0 →
    n ≤ length out_allocation ∧
    length out = length out0 ∧
    (∀ i, n ≤ i → out !! i = out0 !! i) ∧
    (∀ i id, i < n → out_allocation !! i = Some id →
       out !! i =
         if isBroadcast id then Some None
         else if pending_flag (is_sliced' out_root) flag
                   (drop (S i) (take n out_allocation))
         then Some (Some false)
         else in_contiguity !! i).
Proof.
  induction n as [|n IH]; intros flag out0 out H Hout.
  - cbn [slice_scan] in H. injection H as <-.
    split_and!; [lia | done | done |]. intros i id Hi. lia.
  - cbn [slice_scan] in H. inv_bind H. rename a into id, Ha into Hid.
    inv_bind H. destruct a as [c next]. rename Ha into Hstep.
    apply at_index_Ok in Hid.
    assert (Hc : next = (if isBroadcast id then flag else false) ∧
                 Some c = if isBroadcast id then Some None
                          else if flag then Some (Some false)
                          else in_contiguity !! n).
    { destruct (isBroadcast id); [by injection Hstep as <- <-|].
      destruct flag; [by injection Hstep as <- <-|].
      inv_bind Hstep. injection Hstep as <- <-.
      by apply at_index_Ok in Ha. }
    destruct Hc as [-> Hc].
    apply IH in H as (Hal & Hlen & Hhi & Hlo); [|rewrite length_insert; lia].
    pose proof (lookup_lt_Some _ _ _ Hid) as Hn.
    split_and!.
    + lia.
    + by rewrite Hlen, length_insert.
    + intros i Hi. rewrite Hhi by lia. apply list_lookup_insert_ne. lia.
    + intros i id' Hi Hid'.
      destruct (decide (i = n)) as [->|Hne].
      * rewrite Hhi by lia. rewrite list_lookup_insert_eq by lia.
        rewrite Hid in Hid'. injection Hid' as <-.
        rewrite drop_ge by (rewrite length_take; lia).
        exact Hc.
      * rewrite (Hlo i id') by (done || lia).
        rewrite (take_S_r _ _ _ Hid).
        rewrite drop_app_le by (rewrite length_take; lia).
        rewrite pending_flag_snoc. done.
Qed.

(** The scan returns when it stays within the allocation domain and the
    contiguity of the input. *)
Lemma slice_scan_total out_root out_allocation in_contiguity :
  ∀ n flag out0,
    n ≤ length out_allocation → n ≤ length in_contiguity →
    ∃ out,
      slice_scan' out_root out_allocation in_contiguity n flag out0 = Ok out.
Proof.
  induction n as [|n IH]; intros flag out0 Hal Hin; [by eexists|].
  destruct (at_index_lt out_allocation n) as (id & Hid & _); [lia|].
  destruct (at_index_lt in_contiguity n) as (c0 & Hc0 & _); [lia|].
  cbn [slice_scan]. rewrite Hid. cbn [mbind res_bind].
  destruct (isBroadcast id); cbn [mbind res_bind]; [apply IH; lia|].
  destruct flag; cbn [mbind res_bind]; [apply IH; lia|].
  rewrite Hc0. cbn [mbind res_bind]. apply IH; lia.
Qed.

(** What a run of the slice rule that returns has done. *)
Lemma handle_SliceOp_Ok inp out st st' :
  handle_SliceOp mapProducerToConsumer getAllExprsBetween inp out st = Ok st' →
  (st' = st ∧
   ∃ in_layout,
     preferredLayout st (ValTensor inp) = Ok in_layout ∧
     computePermutation (getMaybeRFactorDomain inp)
       (allocation_domain in_layout) = None) ∨
  ∃ in_layout out_root_to_rfactor L,
    preferredLayout st (ValTensor inp) = Ok in_layout ∧
    build_out_root_to_rfactor (seq 0 (length (getMaybeRFactorDomain out)))
      (getRootDomain out) (getMaybeRFactorDomain out) ∅
      = Ok out_root_to_rfactor ∧
    slice_allocation (mapProducerToConsumer inp out) out_root_to_rfactor
      (allocation_domain in_layout) = Ok (allocation_domain L) ∧
    slice_scan' (getRootDomain out) (allocation_domain L)
      (contiguity in_layout) (length (getMaybeRFactorDomain out)) false
      (replicate (length (getMaybeRFactorDomain out)) None)
      = Ok (contiguity L) ∧
    computePermutation (getMaybeRFactorDomain inp)
      (allocation_domain in_layout) ≠ None ∧
    add out inp L st = Ok st'.
Proof.
  unfold handle_SliceOp. intros H.
  inv_bind H. rename a into r2r. inv_bind H. rename a into in_layout.
  destruct (computePermutation _ _) eqn:Hperm; simpl in H;
    [|left; injection H as <-; eauto].
  inv_bind H. rename a into alloc. inv_bind H. rename a into c.
  right. exists in_layout, r2r,
    {| allocation_domain := alloc; contiguity := c |}.
  split_and!; try done. by rewrite Hperm.
Qed.
(** The scan returns within the allocation domain and the contiguity of
    the input, and its result is the one [scan_contiguity] describes; three
    non-broadcast dimensions of which only the last is sliced, with a
    contiguous input, give [true; false; true]. *)
Lemma slice_contiguity_scan (out_root out_allocation : list IterDomain)
    (in_contiguity : list contig) (out_rank : nat) :
  out_rank ≤ length out_allocation →
  out_rank ≤ length in_contiguity →
  (∃ out,
     slice_scan' out_root out_allocation in_contiguity out_rank false
       (replicate out_rank None) = Ok out ∧
     length out = out_rank ∧
     ∀ i, i < out_rank →
       out !! i = scan_contiguity (is_sliced' out_root) out_allocation
                    in_contiguity out_rank i) ∧
  (∀ a0 a1 a2,
     out_allocation = [a0; a1; a2] →
     in_contiguity = [Some true; Some true; Some true] →
     out_rank = 3 →
     isBroadcast a0 = false → isBroadcast a1 = false →
     isBroadcast a2 = false →
     is_sliced' out_root a0 = false → is_sliced' out_root a1 = false →
     is_sliced' out_root a2 = true →
     slice_scan' out_root out_allocation in_contiguity out_rank false
       (replicate out_rank None) = Ok [Some true; Some false; Some true]).
Proof.
  intros Hal Hin. split.
  - destruct (slice_scan_total out_root out_allocation in_contiguity
                out_rank false (replicate out_rank None) Hal Hin)
      as [out Hrun].
    exists out. split; [done|].
    apply slice_scan_spec in Hrun as (_ & Hlen & _ & Hlo);
      [|by rewrite length_replicate].
    rewrite length_replicate in Hlen. split; [done|].
    intros i Hi. unfold scan_contiguity.
    destruct (lookup_lt_is_Some_2 out_allocation i) as [id Hid]; [lia|].
    rewrite Hid. simpl. by apply Hlo.
  - intros a0 a1 a2 -> -> -> Hb0 Hb1 Hb2 Hs0 Hs1 Hs2.
    cbn [slice_scan replicate at_index lookup list_lookup mbind res_bind
         list_insert insert].
    rewrite Hb2. cbn [mbind res_bind]. rewrite Hs2, Hb1.
    cbn [mbind res_bind]. rewrite Hs1, Hb0. reflexivity.
Qed.

(** The entries of the map from the root to the rfactor domain come from
    equal positions of the two domains, and there are at most as many as
    the rank. *)
Lemma build_out_root_to_rfactor_Ok out_root out_rfactor :
  ∀ range acc m,
    build_out_root_to_rfactor range out_root out_rfactor acc = Ok m →
    size m ≤ size acc + length range ∧
    ∀ k v, m !! k = Some v →
      acc !! k = Some v ∨
      ∃ j, j ∈ range ∧ out_root !! j = Some k ∧ out_rfactor !! j = Some v.
Proof.
  induction range as [|i range IH]; intros acc m H; cbn in H.
  - injection H as <-. split; [lia | eauto].
  - inv_bind H. rename a into k0. inv_bind H. rename a into v0.
    apply at_index_Ok in Ha, Ha0.
    apply IH in H as [Hsize Hm]. split.
    + pose proof (map_size_insert k0 v0 acc) as Hins.
      destruct (acc !! k0); unfold id in Hins; simpl in *; lia.
    + intros k v Hkv. destruct (Hm k v Hkv) as [Hacc|(j & Hj & ? & ?)].
      * rewrite lookup_insert in Hacc. case_decide; [|by left].
        simplify_eq. right. exists i. split_and!; [left | done | done].
      * right. exists j. split_and!; [by right | done | done].
Qed.

Lemma map_at_Ok {K A} (m : K → option A) k a : map_at m k = Ok a ↔ m k = Some a.
Proof. unfold map_at. destruct (m k); naive_solver. Qed.

(** The allocation domain of a slice lists the images of the non-reduction
    allocation dimensions of its input, in their order. *)
Lemma slice_allocation_Ok p2c (r2r : gmap IterDomain IterDomain) :
  ∀ l out,
    slice_allocation p2c r2r l = Ok out →
    Forall2 (λ in_id out_id,
               ∃ root_id, p2c in_id = Some root_id ∧
                          r2r !! root_id = Some out_id)
      (filter (λ id, isReduction id = false) l) out.
Proof.
  induction l as [|id l IH]; intros out H; cbn in H.
  - injection H as <-. constructor.
  - rewrite filter_cons. destruct (isReduction id) eqn:Hred.
    + rewrite decide_False by done. by apply IH.
    + rewrite decide_True by done.
      inv_bind H. rename a into root_id. inv_bind H. rename a into out_id.
      inv_bind H. injection H as <-.
      apply map_at_Ok in Ha, Ha0. constructor; [eauto | by apply IH].
Qed.

(** C4, amended: the slice rule keeps the allocation order of its input
    and computes the contiguity of its output by a scan of the output
    allocation domain from the minor-most to the major-most dimension.  A
    broadcast dimension gets nullopt and does not consume the pending flag;
    a non-broadcast dimension reached while the flag is pending is marked
    non-contiguous and clears it; any other dimension inherits the
    contiguity of the input dimension it is the image of.  Every sliced
    dimension, broadcast or not, sets the flag once it has been visited.
    For a contiguous 3-D input of which only the minor-most dimension is
    sliced, and no dimension is a broadcast, the result is
    [true; false; true].  (Stated for inputs whose allocation domain holds
    no reduction dimension.) *)
Theorem slice_contiguity (inp out : TensorView) (st st' : AliasAnalysisResult)
    (in_layout : Layout) :
  preferredLayout st (ValTensor inp) = Ok in_layout →
  Forall (λ id, isReduction id = false) (allocation_domain in_layout) →
  computePermutation (getMaybeRFactorDomain inp) (allocation_domain in_layout)
    ≠ None →
  handle_SliceOp mapProducerToConsumer getAllExprsBetween inp out st = Ok st' →
  ∃ L,
    alias_to_source_ st' !! out = Some (inp, L) ∧
    length (contiguity L) = length (getMaybeRFactorDomain out) ∧
    length (allocation_domain L) = length (allocation_domain in_layout) ∧
    (∀ i, i < length (getMaybeRFactorDomain out) →
       ∃ in_id root_id out_id,
         allocation_domain in_layout !! i = Some in_id ∧
         mapProducerToConsumer inp out in_id = Some root_id ∧
         (∃ j, getRootDomain out !! j = Some root_id ∧
               getMaybeRFactorDomain out !! j = Some out_id) ∧
         allocation_domain L !! i = Some out_id ∧
         contiguity L !! i =
           if isBroadcast out_id then Some None
           else if pending_flag (is_sliced' (getRootDomain out)) false
                     (drop (S i) (take (length (getMaybeRFactorDomain out))
                                    (allocation_domain L)))
           then Some (Some false)
           else contiguity in_layout !! i) ∧
    (∀ o0 o1 o2,
       allocation_domain L = [o0; o1; o2] →
       contiguity in_layout = [Some true; Some true; Some true] →
       length (getMaybeRFactorDomain out) = 3 →
       isBroadcast o0 = false → isBroadcast o1 = false →
       isBroadcast o2 = false →
       is_sliced' (getRootDomain out) o0 = false →
       is_sliced' (getRootDomain out) o1 = false →
       is_sliced' (getRootDomain out) o2 = true →
       contiguity L = [Some true; Some false; Some true]).
Proof.
  intros Hpref Hnored Hperm H.
  apply handle_SliceOp_Ok in H as [(_ & L0 & HL0 & Hnone)|H].
  { rewrite Hpref in HL0. injection HL0 as <-. done. }
  destruct H as (in_layout' & r2r & L & Hpref' & Hbuild & Halloc & Hscan
                 & _ & Hadd).
  rewrite Hpref in Hpref'. injection Hpref' as <-.
  exists L. apply add_Ok in Hadd as [_ ->]. simpl.
  apply build_out_root_to_rfactor_Ok in Hbuild as [_ Hr2r].
  apply slice_allocation_Ok in Halloc.
  assert (Hfilter : filter (λ id, isReduction id = false)
                      (allocation_domain in_layout)
                    = allocation_domain in_layout).
  { clear -Hnored. induction Hnored as [|id l Hid _ IH]; [done|].
    rewrite filter_cons, decide_True by done. by rewrite IH. }
  rewrite Hfilter in Halloc.
  pose proof (Forall2_length _ _ _ Halloc) as Hlen2.
  pose proof Hscan as Hscan'.
  apply slice_scan_spec in Hscan as (Hal & Hlen & _ & Hlo);
    [|by rewrite length_replicate].
  rewrite length_replicate in Hlen.
  split_and!; [apply lookup_insert_eq | done | done | |].
  - intros i Hi.
    destruct (lookup_lt_is_Some_2 (allocation_domain L) i) as [out_id Hout];
      [lia|].
    destruct (Forall2_lookup_r _ _ _ _ _ Halloc Hout)
      as (in_id & Hin & root_id & Hroot & Hrf).
    exists in_id, root_id, out_id.
    destruct (Hr2r _ _ Hrf) as [Hempty|(j & _ & Hj1 & Hj2)];
      [by rewrite lookup_empty in Hempty|].
    split_and!; [done | done | by exists j | done | by apply Hlo].
  - intros o0 o1 o2 HL Hc Hrank Hb0 Hb1 Hb2 Hs0 Hs1 Hs2.
    rewrite HL, Hc, Hrank in Hscan'.
    destruct (slice_contiguity_scan (getRootDomain out) [o0; o1; o2]
                [Some true; Some true; Some true] 3) as [_ H3];
      [simpl; lia | simpl; lia |].
    rewrite (H3 o0 o1 o2) in Hscan' by done. by injection Hscan'.
Qed.
End SliceFacts.

(** The slice of a contiguous 3-D tensor on its minor-most dimension is
    registered with contiguity [true; false; true]. *)
Lemma handle_SliceOp_3d :
  (st ← handle_SliceOp Ex.p2c Ex.between Ex.t3 Ex.s3 empty_analysis;
   Ok (alias_to_source_ st !! Ex.s3)) =
  Ok (Some (Ex.t3,
            {| allocation_domain := [Ex.dim 24; Ex.dim 25; Ex.dim 27];
               contiguity := [Some true; Some false; Some true] |})).
Proof. vm_compute. reflexivity. Qed.

Lemma slice_contiguity_witness :
  ∃ st' L,
    handle_SliceOp Ex.p2c Ex.between Ex.t3 Ex.s3 empty_analysis = Ok st' ∧
    alias_to_source_ st' !! Ex.s3 = Some (Ex.t3, L) ∧
    length (contiguity L) = 3.
Proof.
  destruct (handle_SliceOp Ex.p2c Ex.between Ex.t3 Ex.s3 empty_analysis)
    as [st'|e] eqn:Hrun.
  - destruct (slice_contiguity Ex.p2c Ex.between Ex.t3 Ex.s3 empty_analysis
                st' (Ex.layout_of Ex.t3)) as (L & HL & Hlen & _).
    + reflexivity.
    + repeat constructor.
    + vm_compute. discriminate.
    + exact Hrun.
    + exists st', L. split; [reflexivity|]. split; [exact HL | exact Hlen].
  - exfalso. pose proof handle_SliceOp_3d as H.
    rewrite Hrun in H. discriminate H.
Defined.

(** With a reduction dimension skipped, the scan reads the contiguity of the
    input at the index of the output dimension: the sliced minor-most
    dimension of [s5], image of the contiguous last dimension of [t5], gets
    the flag of the middle dimension of [t5]. *)
Lemma handle_SliceOp_reduction_index :
  (st ← handle_SliceOp Ex.p2c Ex.between Ex.t5 Ex.s5 empty_analysis;
   Ok (alias_to_source_ st !! Ex.s5)) =
  Ok (Some (Ex.t5,
            {| allocation_domain := [Ex.dim 74; Ex.dim 76];
               contiguity := [Some false; Some false] |})).
Proof. vm_compute. reflexivity. Qed.

(** The view that merges the first two dimensions of a contiguous 3-D
    tensor is registered with two contiguous dimensions. *)
Lemma handle_ViewOp_merge_neighbours :
  (st ← handle_ViewOp Ex.p2c Ex.c2p Ex.between Ex.t3 Ex.w3 empty_analysis;
   Ok (alias_to_source_ st !! Ex.w3)) =
  Ok (Some (Ex.t3,
            {| allocation_domain := [Ex.dim 64; Ex.dim 63];
               contiguity := [Some true; Some true] |})).
Proof. vm_compute. reflexivity. Qed.

(** C4, as stated, fails: a sliced broadcast dimension sets the flag.  In
    the slice of a contiguous 2-D tensor whose minor-most dimension becomes
    a broadcast, the outer dimension is marked non-contiguous, while no
    sliced non-broadcast dimension precedes it in the scan. *)
Lemma sliced_broadcast_sets_flag :
  (st ← handle_SliceOp Ex.p2c Ex.between Ex.t2 Ex.s2 empty_analysis;
   Ok (alias_to_source_ st !! Ex.s2)) =
  Ok (Some (Ex.t2,
            {| allocation_domain := [Ex.dim 33; Ex.bcast 35];
               contiguity := [Some false; None] |})) ∧
  scan_contiguity
    (sliced_non_broadcast (is_sliced Ex.between (getRootDomain Ex.s2)))
    [Ex.dim 33; Ex.bcast 35] (getContiguity Ex.t2) 2 0 = Some (Some true).
Proof. split; vm_compute; reflexivity. Qed.

(** ** The linked map *)

Section LinkedHashMapFacts.
Context {K V : Type} `{EqDecision K}.
Implicit Types (m : list (K * V)) (key : K).

(** The iterator that [erase] returns points to what followed the entry. *)
Lemma lhm_erase_next key m (v : V) (inner : K) m' :
  lhm_erase key m = Ok (v, Some inner, m') → adjacent_in m key inner.
Proof.
  revert v m'. induction m as [|[k v0] m IH]; intros v m' H; cbn in H; [done|].
  destruct (decide (k = key)) as [->|Hne].
  - injection H as <- Hhead <-.
    destruct m as [|[k1 v1] m]; simplify_eq/=.
    by exists [], v0, v1, m.
  - inv_bind H. destruct a as [[v1 i1] m1]. injection H as <- -> <-.
    destruct (IH _ _ Ha) as (l1 & vo & vi & l2 & ->).
    by exists ((k, v0) :: l1), vo, vi, l2.
Qed.

Lemma lhm_erase_first key (v : V) (l1 l2 : list (K * V)) :
  key ∉ l1.*1 →
  lhm_erase key (l1 ++ (key, v) :: l2) = Ok (v, head (l2.*1), l1 ++ l2).
Proof.
  induction l1 as [|[k v0] l1 IH]; intros Hnotin; cbn.
  - by rewrite decide_True.
  - apply not_elem_of_cons in Hnotin as [Hne Hnotin].
    rewrite decide_False by done. by rewrite IH.
Qed.

Lemma lhm_erase_elem key m :
  key ∈ m.*1 → ∃ v i m', lhm_erase key m = Ok (v, i, m').
Proof.
  induction m as [|[k v0] m IH]; intros Hel; cbn.
  - by apply elem_of_nil in Hel.
  - destruct (decide (k = key)) as [->|Hne]; [eauto|].
    apply elem_of_cons in Hel as [?|Hel]; [done|].
    destruct (IH Hel) as (v & i & m' & ->). cbn. eauto.
Qed.

Lemma lhm_erase_Permutation key m (v : V) (i : option K) m' :
  lhm_erase key m = Ok (v, i, m') → m ≡ₚ (key, v) :: m'.
Proof.
  revert v i m'.
  induction m as [|[k v0] m IH]; intros v i m' H; cbn in H; [done|].
  destruct (decide (k = key)) as [->|Hne].
  - by injection H as <- _ <-.
  - inv_bind H. destruct a as [[v1 i1] m1]. injection H as <- _ <-.
    rewrite (IH _ _ _ Ha). apply Permutation_swap.
Qed.

Lemma lhm_insert_before_Permutation (i : option K) (kv : K * V) m m' :
  lhm_insert_before i kv m = Ok m' → m' ≡ₚ kv :: m.
Proof.
  revert m'. induction m as [|[k v] m IH]; intros m' H;
    destruct i as [k'|]; cbn in H.
  - done.
  - by injection H as <-.
  - destruct (decide (k = k')); [by injection H as <-|].
    inv_bind H. injection H as <-. rewrite (IH _ Ha). apply Permutation_swap.
  - injection H as <-. symmetry. apply (Permutation_cons_append ((k, v) :: m)).
Qed.

(** The keys of a linked map stay pairwise different. *)
Lemma lhm_erase_NoDup key m (v : V) (i : option K) m' :
  lhm_erase key m = Ok (v, i, m') → NoDup m.*1 → NoDup m'.*1.
Proof.
  intros H%lhm_erase_Permutation. rewrite H. cbn.
  by intros [_ ?]%NoDup_cons.
Qed.

Lemma lhm_insert_NoDup (i : option K) key (v : V) m m' :
  lhm_insert i key v m = Ok m' → NoDup m.*1 → NoDup m'.*1.
Proof.
  unfold lhm_insert. case_bool_decide as Hfresh; [done|].
  intros H%lhm_insert_before_Permutation Hnd. rewrite H. cbn.
  by apply NoDup_cons.
Qed.

(** An insertion before the iterator that points to the head of [l2], or to
    the end when [l2] is empty, lands between [l1] and [l2]. *)
Lemma lhm_insert_at (l1 l2 : list (K * V)) key (v : V) :
  key ∉ (l1 ++ l2).*1 →
  (∀ k, head (l2.*1) = Some k → k ∉ l1.*1) →
  lhm_insert (head (l2.*1)) key v (l1 ++ l2) = Ok (l1 ++ (key, v) :: l2).
Proof.
  intros Hfresh Hhead. unfold lhm_insert.
  rewrite bool_decide_eq_false_2 by done. clear Hfresh.
  induction l1 as [|[k0 v0] l1 IH]; cbn.
  - destruct l2 as [|[k v1] l2]; cbn; [done|]. by rewrite decide_True.
  - destruct (head (l2.*1)) as [k|] eqn:Hk.
    + specialize (Hhead k eq_refl). cbn in Hhead.
      apply not_elem_of_cons in Hhead as [Hne Hnotin].
      rewrite decide_False by done.
      rewrite IH; [done|]. by intros k' [= <-].
    + destruct l2; [|done]. by rewrite !app_nil_r.
Qed.
End LinkedHashMapFacts.

(** ** Giving up on an alias *)

Lemma replay_app c2p pre rest m0 :
  replay c2p (pre ++ rest) m0 =
    r ← replay c2p pre m0;
    match r with None => Ok None | Some m => replay c2p rest m end.
Proof.
  revert m0. induction pre as [|t pre IH]; intros m0; cbn; [done|].
  destruct (replay_transform c2p t m0) as [[m|]|]; cbn; [apply IH | done | done].
Qed.

(** A merge of two dimensions that are not neighbours in the current
    allocation order makes the replay give up. *)
Lemma replay_transform_not_adjacent c2p merge_outer merge_inner merge_out m :
  map_or_identity c2p merge_outer ∈ m.*1 →
  ¬ adjacent_in m (map_or_identity c2p merge_outer)
                  (map_or_identity c2p merge_inner) →
  replay_transform c2p (Merge merge_outer merge_inner merge_out) m = Ok None.
Proof.
  intros Hel Hadj. cbn.
  destruct (lhm_erase_elem _ _ Hel) as (v & i & m' & Herase).
  rewrite Herase. cbn. rewrite bool_decide_eq_true_2; [done|].
  intros ->. apply Hadj. by eapply lhm_erase_next.
Qed.

(** A merge of two neighbours that the contiguity table rejects makes the
    replay give up. *)
Lemma replay_transform_not_mergeable c2p merge_outer merge_inner merge_out
    l1 oc ic l2 c :
  let outer := map_or_identity c2p merge_outer in
  let inner := map_or_identity c2p merge_inner in
  NoDup (l1 ++ (outer, oc) :: (inner, ic) :: l2).*1 →
  mergeContiguity outer oc inner ic = Ok (false, c) →
  replay_transform c2p (Merge merge_outer merge_inner merge_out)
    (l1 ++ (outer, oc) :: (inner, ic) :: l2) = Ok None.
Proof.
  intros outer inner Hnd Hmerge. cbn. fold outer inner.
  rewrite fmap_app in Hnd. cbn in Hnd.
  apply NoDup_app in Hnd as (_ & Hdisj & _).
  assert (Ho : outer ∉ l1.*1).
  { intros Hel. apply (Hdisj _ Hel). left. }
  assert (Hi : inner ∉ l1.*1).
  { intros Hel. apply (Hdisj _ Hel). right. left. }
  rewrite (lhm_erase_first outer oc l1 ((inner, ic) :: l2) Ho). cbn.
  rewrite bool_decide_eq_false_2 by (intros Hne; by apply Hne).
  rewrite (lhm_erase_first inner ic l1 l2 Hi). cbn.
  by rewrite Hmerge.
Qed.

Lemma collect_allocation_NoDup :
  ∀ in_allocation i in_contiguity acc m,
    collect_allocation i in_allocation in_contiguity acc = Ok m →
    NoDup acc.*1 → NoDup m.*1.
Proof.
  induction in_allocation as [|id l IH]; intros i c acc m H Hnd; cbn in H.
  - by injection H as <-.
  - destruct (isReduction id); [by eapply IH|].
    inv_bind H. inv_bind H. eapply IH; [done|]. by eapply lhm_insert_NoDup.
Qed.

Lemma replay_transform_NoDup c2p transform m m' :
  replay_transform c2p transform m = Ok (Some m') →
  NoDup m.*1 → NoDup m'.*1.
Proof.
  intros H Hnd. destruct transform as [inp outer inner|outer inner out| |];
    cbn in H; try done.
  - inv_bind H. destruct a as [[c i] m1].
    destruct (splitContiguity c) as [oc ic].
    inv_bind H. inv_bind H. injection H as <-.
    eapply lhm_insert_NoDup; [done|]. eapply lhm_insert_NoDup; [done|].
    by eapply lhm_erase_NoDup.
  - inv_bind H. destruct a as [[oc i] m1].
    case_bool_decide; [done|].
    inv_bind H. destruct a as [[ic i2] m2].
    inv_bind H. destruct a as [[] c]; cbn in H; [|done].
    inv_bind H. injection H as <-.
    eapply lhm_insert_NoDup; [done|].
    eapply lhm_erase_NoDup; [done|]. by eapply lhm_erase_NoDup.
Qed.

Lemma replay_NoDup c2p transforms :
  ∀ m m', replay c2p transforms m = Ok (Some m') →
          NoDup m.*1 → NoDup m'.*1.
Proof.
  induction transforms as [|t ts IH]; intros m m' H Hnd; cbn in H.
  - by injection H as <-.
  - inv_bind H. destruct a as [m1|]; [|done].
    eapply IH; [done|]. by eapply replay_transform_NoDup.
Qed.


Lemma build_out_root_to_rfactor_total out_root out_rfactor :
  ∀ range acc,
    (∀ i, i ∈ range → i < length out_root ∧ i < length out_rfactor) →
    ∃ m, build_out_root_to_rfactor range out_root out_rfactor acc = Ok m.
Proof.
  induction range as [|i range IH]; intros acc Hlt; cbn; [eauto|].
  destruct (Hlt i) as [Hi1 Hi2]; [left|].
  destruct (at_index_lt out_root i Hi1) as (k & -> & _).
  destruct (at_index_lt out_rfactor i Hi2) as (v & -> & _). cbn.
  apply IH. intros j Hj. apply Hlt. by right.
Qed.

Lemma carry_over_wf skip p2c :
  ∀ l i c out_layout L,
    carry_over skip p2c i l c out_layout = Ok L →
    layout_wf out_layout → layout_wf L.
Proof.
  induction l as [|id l IH]; intros i c out_layout L H Hwf; cbn in H.
  - by injection H as <-.
  - destruct (skip id); [by eapply IH|].
    inv_bind H. inv_bind H. eapply IH; [done|].
    unfold layout_wf in *. cbn. rewrite !length_app. cbn. lia.
Qed.

Lemma append_broadcast_dims_wf flags :
  ∀ l i out_layout,
    layout_wf out_layout →
    layout_wf (append_broadcast_dims flags i l out_layout).
Proof.
  induction l as [|id l IH]; intros i out_layout Hwf; cbn; [done|].
  apply IH. destruct (flags i); [|done].
  unfold layout_wf in *. cbn. rewrite !length_app. cbn. lia.
Qed.

Section RuleFacts.
Variable mapProducerToConsumer :
  TensorView → TensorView → IterDomain → option IterDomain.
Variable mapConsumerToProducer :
  TensorView → TensorView → IterDomain → option IterDomain.
Variable getAllExprsBetween :
  list IterDomain → list IterDomain → list IdExpr.

Local Abbreviation handle_ViewOp' :=
  (handle_ViewOp mapProducerToConsumer mapConsumerToProducer
     getAllExprsBetween).
Local Abbreviation handle_LoadStoreOp' :=
  (handle_LoadStoreOp mapProducerToConsumer).
Local Abbreviation handle_SliceOp' :=
  (handle_SliceOp mapProducerToConsumer getAllExprsBetween).
Local Abbreviation handle_BroadcastOp' :=
  (handle_BroadcastOp mapProducerToConsumer).
Local Abbreviation handle_SqueezeOp' :=
  (handle_SqueezeOp mapProducerToConsumer).
Local Abbreviation dispatch' :=
  (dispatch mapProducerToConsumer mapConsumerToProducer getAllExprsBetween).
Local Abbreviation dispatch_all' :=
  (dispatch_all mapProducerToConsumer mapConsumerToProducer
     getAllExprsBetween).

(** What a run of each of the other rules that returns has done: nothing,
    or one registration of a well-formed layout for its output. *)
Lemma handle_ViewOp_Ok inp out st st' :
  handle_ViewOp' inp out st = Ok st' →
  st' = st ∨ ∃ L, layout_wf L ∧ add out inp L st = Ok st'.
Proof.
  unfold handle_ViewOp. intros H. inv_bind H.
  destruct (computePermutation _ _); cbn in H; [|left; by injection H].
  inv_bind H. inv_bind H. destruct a1 as [m|]; [|left; by injection H].
  right. eexists. split; [|done].
  unfold layout_wf. cbn. by rewrite !length_fmap.
Qed.

Lemma handle_LoadStoreOp_Ok v out st st' :
  handle_LoadStoreOp' v out st = Ok st' →
  st' = st ∨ ∃ inp L, layout_wf L ∧ add out inp L st = Ok st'.
Proof.
  unfold handle_LoadStoreOp. intros H.
  destruct (as_TensorView v) as [inp|]; [|left; by injection H].
  inv_bind H.
  destruct (computePermutation _ _); cbn in H; [|left; by injection H].
  inv_bind H. right. exists inp, a0. split; [|done].
  by eapply carry_over_wf.
Qed.

Lemma handle_BroadcastOp_Ok v out flags st st' :
  handle_BroadcastOp' v out flags st = Ok st' →
  st' = st ∨ ∃ inp L, layout_wf L ∧ add out inp L st = Ok st'.
Proof.
  unfold handle_BroadcastOp. intros H.
  destruct (as_TensorView v) as [inp|]; [|left; by injection H].
  inv_bind H.
  destruct (computePermutation _ _); cbn in H; [|left; by injection H].
  inv_bind H. right. eexists inp, _. split; [|done].
  apply append_broadcast_dims_wf. by eapply carry_over_wf.
Qed.

Lemma handle_SqueezeOp_Ok v out st st' :
  handle_SqueezeOp' v out st = Ok st' →
  st' = st ∨ ∃ inp L, layout_wf L ∧ add out inp L st = Ok st'.
Proof.
  unfold handle_SqueezeOp. intros H.
  destruct (as_TensorView v) as [inp|]; [|left; by injection H].
  inv_bind H.
  destruct (computePermutation _ _); cbn in H; [|left; by injection H].
  inv_bind H. right. exists inp, a0. split; [|done].
  by eapply carry_over_wf.
Qed.

(** C6: a rule that declines to alias returns normally and leaves the
    result as it was.  This holds for every rule when the rfactor domain of
    the input is not a permutation of the allocation domain of its
    preferred layout (for the slice rule, once the map from the root to the
    rfactor domain of the output has been built), and for the view rule
    when the replay reaches a merge whose operands are not neighbours in
    the current allocation order or are rejected by the contiguity table.
    In general a rule that returns has either left the result alone or
    performed one [add], and an [add] that returns has changed the result. *)
Theorem soft_refusal_is_atomic (st : AliasAnalysisResult) :
  (∀ inp out in_layout,
     preferredLayout st (ValTensor inp) = Ok in_layout →
     computePermutation (getMaybeRFactorDomain inp)
       (allocation_domain in_layout) = None →
     handle_ViewOp' inp out st = Ok st ∧
     handle_LoadStoreOp' (ValTensor inp) out st = Ok st ∧
     (length (getMaybeRFactorDomain out) ≤ length (getRootDomain out) →
      handle_SliceOp' inp out st = Ok st) ∧
     (∀ flags, handle_BroadcastOp' (ValTensor inp) out flags st = Ok st) ∧
     handle_SqueezeOp' (ValTensor inp) out st = Ok st) ∧
  (∀ inp out in_layout m0 pre merge_outer merge_inner merge_out post m,
     preferredLayout st (ValTensor inp) = Ok in_layout →
     collect_allocation 0 (allocation_domain in_layout)
       (contiguity in_layout) [] = Ok m0 →
     getAllExprsBetween (getRootDomain out) (getMaybeRFactorDomain out)
       = pre ++ Merge merge_outer merge_inner merge_out :: post →
     replay (mapConsumerToProducer inp out) pre m0 = Ok (Some m) →
     let outer := map_or_identity (mapConsumerToProducer inp out) merge_outer in
     let inner := map_or_identity (mapConsumerToProducer inp out) merge_inner in
     (outer ∈ m.*1 → ¬ adjacent_in m outer inner →
      handle_ViewOp' inp out st = Ok st) ∧
     (∀ l1 oc ic l2 c,
        m = l1 ++ (outer, oc) :: (inner, ic) :: l2 →
        mergeContiguity outer oc inner ic = Ok (false, c) →
        handle_ViewOp' inp out st = Ok st)) ∧
  (∀ expr st',
     dispatch' expr st = Ok st' →
     st' = st ∨ ∃ alias source layout, add alias source layout st = Ok st') ∧
  (∀ alias source layout st',
     add alias source layout st = Ok st' → st' ≠ st).
Proof.
  split_and!; cycle 3.
  { intros alias source layout st' [Hnone ->]%add_Ok Heq.
    apply (f_equal (λ s, alias_to_source_ s !! alias)) in Heq. cbn in Heq.
    by rewrite lookup_insert_eq, Hnone in Heq. }
  - intros inp out in_layout Hpref Hperm.
    unfold handle_ViewOp, handle_LoadStoreOp, handle_SliceOp,
      handle_BroadcastOp, handle_SqueezeOp.
    cbn [as_TensorView]. rewrite Hpref. cbn [mbind res_bind].
    rewrite Hperm. split_and!; try done.
    intros Hlen.
    destruct (build_out_root_to_rfactor_total (getRootDomain out)
                (getMaybeRFactorDomain out)
                (seq 0 (length (getMaybeRFactorDomain out))) ∅) as [m ->];
      [|done].
    intros i Hi%elem_of_seq. lia.
  - intros inp out in_layout m0 pre merge_outer merge_inner merge_out post m
      Hpref Hcollect Hbetween Hpre outer inner.
    assert (Hgive_up :
              replay_transform (mapConsumerToProducer inp out)
                (Merge merge_outer merge_inner merge_out) m = Ok None →
              handle_ViewOp' inp out st = Ok st).
    { intros Hstep. unfold handle_ViewOp. rewrite Hpref. cbn [mbind res_bind].
      destruct (computePermutation _ _); [|done]. cbn [has_value negb].
      rewrite Hcollect. cbn [mbind res_bind].
      rewrite Hbetween, replay_app, Hpre. cbn [mbind res_bind replay].
      by rewrite Hstep. }
    split.
    + intros Hel Hadj. by apply Hgive_up, replay_transform_not_adjacent.
    + intros l1 oc ic l2 c -> Hmerge.
      eapply Hgive_up, replay_transform_not_mergeable; [|done].
      eapply replay_NoDup; [done|].
      eapply collect_allocation_NoDup; [done|]. constructor.
  - intros [inp out|v out|inp out|v out flags|v out|] st' H; cbn in H.
    + apply handle_ViewOp_Ok in H as [?|(L & _ & ?)]; eauto.
    + apply handle_LoadStoreOp_Ok in H as [?|(inp & L & _ & ?)]; eauto.
    + apply handle_SliceOp_Ok in H as [[? _]|(? & ? & L & H)]; [by left|].
      right. exists out, inp, L. apply H.
    + apply handle_BroadcastOp_Ok in H as [?|(inp & L & _ & ?)]; eauto.
    + apply handle_SqueezeOp_Ok in H as [?|(inp & L & _ & ?)]; eauto.
    + left. by injection H.
Qed.
End RuleFacts.

(** The view of a 3-D tensor that merges its first and last dimensions is
    declined: the result stays empty. *)
Lemma soft_refusal_is_atomic_witness :
  handle_ViewOp Ex.p2c Ex.c2p Ex.between Ex.t3 Ex.v3 empty_analysis
  = Ok empty_analysis.
Proof.
  pose proof (soft_refusal_is_atomic Ex.p2c Ex.c2p Ex.between empty_analysis)
    as (_ & H & _ & _).
  pose (m0 := [(Ex.dim 21, Some true); (Ex.dim 22, Some true);
               (Ex.dim 23, Some true)]).
  assert (Ho : map_or_identity (Ex.c2p Ex.t3 Ex.v3) (Ex.dim 51) = Ex.dim 21)
    by (vm_compute; reflexivity).
  assert (Hi : map_or_identity (Ex.c2p Ex.t3 Ex.v3) (Ex.dim 53) = Ex.dim 23)
    by (vm_compute; reflexivity).
  refine (proj1 (H Ex.t3 Ex.v3 (Ex.layout_of Ex.t3) m0 []
                   (Ex.dim 51) (Ex.dim 53) (Ex.dim 54) [] m0 _ _ _ _) _ _).
  - reflexivity.
  - vm_compute. reflexivity.
  - vm_compute. reflexivity.
  - reflexivity.
  - rewrite Ho. apply list_elem_of_here.
  - rewrite Ho, Hi. intros (l1 & vo & vi & l2 & Heq).
    destruct l1 as [|p1 [|p2 [|p3 l1]]]; cbn in Heq;
      try discriminate Heq.
    destruct l1; discriminate Heq.
Defined.

(** ** The layout invariant *)

Lemma computePermutation_Permutation (inp out : list IterDomain) :
  computePermutation inp out ≠ None → inp ≡ₚ out.
Proof. unfold computePermutation. by case_decide. Qed.

(** Distinct dimensions with distinct images take distinct entries of the
    map: there are at most as many as the map has entries. *)
Lemma injective_images_le (p2c : IterDomain → option IterDomain) :
  (∀ a b c, p2c a = Some c → p2c b = Some c → a = b) →
  ∀ l out (r2r : gmap IterDomain IterDomain),
    NoDup l →
    Forall2 (λ a o, ∃ r, p2c a = Some r ∧ r2r !! r = Some o) l out →
    length out ≤ size r2r.
Proof.
  intros Hinj. induction l as [|a l IH]; intros out r2r Hnd HF.
  - apply Forall2_nil_inv_l in HF as ->. cbn. lia.
  - apply Forall2_cons_inv_l in HF as (o & out' & (r & Hr & Ho) & HF & ->).
    apply NoDup_cons in Hnd as [Ha Hnd].
    assert (Hle : length out' ≤ size (delete r r2r)).
    { apply IH; [done|].
      apply Forall2_same_length_lookup.
      apply Forall2_same_length_lookup in HF as [Hlen HF].
      split; [done|]. intros i a' o' Ha' Ho'.
      destruct (HF i a' o' Ha' Ho') as (r' & Hr' & Hor').
      exists r'. split; [done|].
      apply lookup_delete_Some. split; [|done].
      intros <-. apply Ha. rewrite (Hinj _ _ _ Hr Hr').
      by eapply list_elem_of_lookup_2. }
    rewrite map_size_delete_Some in Hle by eauto.
    pose proof (map_size_ne_0_lookup_2 r2r r (mk_is_Some _ _ Ho)).
    cbn. lia.
Qed.

Section InvariantFacts.
Variable mapProducerToConsumer :
  TensorView → TensorView → IterDomain → option IterDomain.
Variable mapConsumerToProducer :
  TensorView → TensorView → IterDomain → option IterDomain.
Variable getAllExprsBetween :
  list IterDomain → list IterDomain → list IdExpr.

Local Abbreviation dispatch' :=
  (dispatch mapProducerToConsumer mapConsumerToProducer getAllExprsBetween).
Local Abbreviation dispatch_all' :=
  (dispatch_all mapProducerToConsumer mapConsumerToProducer
     getAllExprsBetween).

Local Abbreviation slice_contract' := (slice_contract mapProducerToConsumer).

(** The slice rule skips the reduction dimensions of its input and still
    registers as many contiguity flags as allocation dimensions. *)
Lemma handle_SliceOp_wf inp out st st' :
  slice_contract' inp out →
  handle_SliceOp mapProducerToConsumer getAllExprsBetween inp out st = Ok st' →
  st' = st ∨ ∃ L, layout_wf L ∧ add out inp L st = Ok st'.
Proof.
  intros [Hnd Hinj] H.
  apply handle_SliceOp_Ok in H
    as [[? _]|(in_layout & r2r & L & _ & Hbuild & Halloc & Hscan
               & Hperm & Hadd)]; [by left|].
  right. exists L. split; [|done].
  apply computePermutation_Permutation in Hperm.
  rewrite Hperm in Hnd.
  apply slice_allocation_Ok in Halloc.
  apply build_out_root_to_rfactor_Ok in Hbuild as [Hsize _].
  rewrite map_size_empty, length_seq in Hsize.
  apply slice_scan_spec in Hscan as (Hal & Hlen & _);
    [|by rewrite length_replicate].
  rewrite length_replicate in Hlen.
  pose proof (injective_images_le _ Hinj _ _ _
                (NoDup_filter _ _ Hnd) Halloc) as Hle.
  unfold layout_wf. lia.
Qed.

Lemma dispatch_wf expr st st' :
  (∀ inp out, expr = SliceOp inp out → slice_contract' inp out) →
  dispatch' expr st = Ok st' →
  st' = st ∨ ∃ alias source L, layout_wf L ∧ add alias source L st = Ok st'.
Proof.
  intros Hslice H.
  destruct expr as [inp out|v out|inp out|v out flags|v out|]; cbn in H.
  - apply handle_ViewOp_Ok in H as [?|(L & ? & ?)]; eauto 6.
  - apply handle_LoadStoreOp_Ok in H as [?|(inp & L & ? & ?)]; eauto 6.
  - apply handle_SliceOp_wf in H as [?|(L & ? & ?)]; eauto 6.
  - apply handle_BroadcastOp_Ok in H as [?|(inp & L & ? & ?)]; eauto 6.
  - apply handle_SqueezeOp_Ok in H as [?|(inp & L & ? & ?)]; eauto 6.
  - left. by injection H.
Qed.

Lemma add_layouts_wf alias source L st st' :
  layouts_wf st → layout_wf L → add alias source L st = Ok st' →
  layouts_wf st'.
Proof.
  intros Hst HL [_ ->]%add_Ok t s L'. cbn.
  rewrite lookup_insert_Some. intros [[_ [= _ <-]]|[_ Hin]]; [done|].
  by eapply Hst.
Qed.

(** C8: every layout the analysis produces has as many contiguity flags as
    allocation dimensions.  Each rule that registers a layout registers a
    well-formed one, the slice rule too when it skips reduction dimensions
    of its input; so the registered layouts stay well formed along the
    whole traversal and through [finalize], and [preferredLayout] returns a
    well-formed layout for every tensor whose own contiguity matches its
    allocation domain. *)
Theorem layouts_stay_wf (es : list Expr) (st st' : AliasAnalysisResult) :
  (∀ inp out, SliceOp inp out ∈ es → slice_contract' inp out) →
  layouts_wf st →
  dispatch_all' es st = Ok st' →
  layouts_wf st' ∧
  (∀ tv L, tensor_wf tv →
           preferredLayout st' (ValTensor tv) = Ok L → layout_wf L) ∧
  (∀ expr st0 st1 alias source L,
     expr ∈ es → dispatch' expr st0 = Ok st1 →
     alias_to_source_ st0 !! alias = None →
     alias_to_source_ st1 !! alias = Some (source, L) →
     layout_wf L) ∧
  (∀ fuel fusion flag final,
     finalize fuel fusion flag st' = Ok final → layouts_wf final).
Proof.
  intros Hslice Hst Hrun.
  assert (Hinv : layouts_wf st').
  { revert st Hst Hrun.
    induction es as [|expr es IH]; intros st Hst Hrun; cbn in Hrun.
    - by injection Hrun as <-.
    - inv_bind Hrun. rename a into st1.
      apply (IH (λ inp out Hel, Hslice inp out (list_elem_of_further _ _ _ Hel))
               st1); [|done].
      apply dispatch_wf in Ha as [->|(alias & source & L & HL & Hadd)];
        [done | by eapply add_layouts_wf |].
      intros inp out ->. apply Hslice. left. }
  split_and!.
  - done.
  - intros tv L Htv HL.
    destruct (preferredLayout_tensor st' tv) as (L' & HL' & Hcase).
    rewrite HL in HL'. injection HL' as <-.
    destruct Hcase as [[s Hs]|[_ ->]]; [by eapply Hinv | done].
  - intros expr st0 st1 alias source L Hel Hstep Hfresh Hreg.
    apply dispatch_wf in Hstep as [->|(a & s & L' & HL' & Hadd)].
    + by rewrite Hfresh in Hreg.
    + apply add_Ok in Hadd as [_ ->]. cbn in Hreg.
      apply lookup_insert_Some in Hreg as [[_ [= _ <-]]|[_ Hin]]; [done|].
      by rewrite Hfresh in Hin.
    + intros inp out ->. by apply Hslice.
  - intros fuel fusion flag final Hfin.
    apply finalize_alias_to_source in Hfin.
    unfold layouts_wf. rewrite Hfin. exact Hinv.
Qed.
End InvariantFacts.

(** The pairwise map of the examples sends different dimensions to
    different dimensions. *)
Lemma lookup_pair_inj (l : list (IterDomain * IterDomain)) :
  NoDup l.*2 →
  ∀ a b c, Ex.lookup_pair l a = Some c → Ex.lookup_pair l b = Some c → a = b.
Proof.
  intros Hnd a b c Ha Hb.
  assert (Hin : ∀ x, Ex.lookup_pair l x = Some c → (x, c) ∈ l).
  { intros x Hx. unfold Ex.lookup_pair in Hx.
    destruct (list_find _ l) as [[i [x' c']]|] eqn:Hfind; [|done].
    injection Hx as ->. apply list_find_Some in Hfind as (Hi & Hx' & _).
    cbn in Hx'. subst x'. by eapply list_elem_of_lookup_2. }
  apply Hin in Ha, Hb. clear Hin.
  induction l as [|[x y] l IH]; [by apply elem_of_nil in Ha|].
  cbn in Hnd. apply NoDup_cons in Hnd as [Hy Hnd].
  apply elem_of_cons in Ha as [Ha|Ha], Hb as [Hb|Hb].
  - congruence.
  - injection Ha as -> ->. exfalso. apply Hy.
    apply list_elem_of_fmap. by exists (b, y).
  - injection Hb as -> ->. exfalso. apply Hy.
    apply list_elem_of_fmap. by exists (a, y).
  - by apply IH.
Qed.

(** The slice of a reduction output: the reduction dimension is skipped and
    the registered layout has two dimensions and two flags. *)
Lemma layouts_stay_wf_witness :
  ∃ st' L,
    dispatch_all Ex.p2c Ex.c2p Ex.between [SliceOp Ex.t4 Ex.s4] empty_analysis
      = Ok st' ∧
    alias_to_source_ st' !! Ex.s4 = Some (Ex.t4, L) ∧
    layout_wf L.
Proof.
  assert (Hval :
    (st ← dispatch_all Ex.p2c Ex.c2p Ex.between [SliceOp Ex.t4 Ex.s4]
            empty_analysis;
     Ok (alias_to_source_ st !! Ex.s4)) =
    Ok (Some (Ex.t4, {| allocation_domain := [Ex.dim 44; Ex.dim 46];
                        contiguity := [Some false; Some true] |})))
    by (vm_compute; reflexivity).
  destruct (dispatch_all Ex.p2c Ex.c2p Ex.between [SliceOp Ex.t4 Ex.s4]
              empty_analysis) as [st'|e] eqn:Hrun;
    cbn [mbind res_bind] in Hval; [|discriminate Hval].
  injection Hval as Hlook.
  eexists st', _. split; [reflexivity|]. split; [exact Hlook|].
  refine (proj1 (layouts_stay_wf Ex.p2c Ex.c2p Ex.between
                   [SliceOp Ex.t4 Ex.s4] empty_analysis st' _ _ Hrun)
            Ex.s4 Ex.t4 _ Hlook).
  - intros inp out Hel. apply list_elem_of_singleton in Hel.
    injection Hel as -> ->. split.
    + refine (bool_decide_unpack _ _). vm_compute. exact I.
    + apply lookup_pair_inj. refine (bool_decide_unpack _ _).
      vm_compute. exact I.
  - intros t s L HL. cbn in HL. by rewrite lookup_empty in HL.
Defined.

(** * Further properties of the analysis *)

(** ** Compliance of layouts *)

Lemma contiguityIsCompliant_true (actual required : contig) :
  contiguityIsCompliant actual required = true ↔
  actual = required ∨ (actual = Some true ∧ required = Some false).
Proof.
  unfold contiguityIsCompliant.
  destruct actual as [[]|], required as [[]|]; cbn; naive_solver.
Qed.

Lemma compliant_loop_true range (actual required : list contig) :
  compliant_loop range actual required = Ok true ↔
  ∀ i, i ∈ range →
    ∃ a r, actual !! i = Some a ∧ required !! i = Some r ∧
           contiguityIsCompliant a r = true.
Proof.
  induction range as [|i range IH]; cbn.
  - split; [|done]. intros _ i Hi. by apply elem_of_nil in Hi.
  - split.
    + intros H. inv_bind H. inv_bind H.
      apply at_index_Ok in Ha, Ha0.
      destruct (contiguityIsCompliant a a0) eqn:Hc; cbn in H; [|done].
      intros j [->|Hj]%elem_of_cons; [eauto|]. by apply IH.
    + intros H. destruct (H i) as (a & r & Ha & Hr & Hc); [left|].
      apply at_index_Ok in Ha, Hr. rewrite Ha. cbn. rewrite Hr. cbn.
      rewrite Hc. cbn. apply IH. intros j Hj. apply H. by right.
Qed.

(** X1: [isCompliantWith] answers true exactly when the required layout has
    no allocation domain, or the two allocation domains are the same
    sequence and at every index both contiguity flags exist and are equal
    or the actual one is contiguous where non-contiguous is required. *)
Theorem isCompliantWith_true (self required : Layout) :
  isCompliantWith self required = Ok true ↔
  allocation_domain required = [] ∨
  (allocation_domain self = allocation_domain required ∧
   ∀ i, i < length (allocation_domain self) →
     ∃ a r, contiguity self !! i = Some a ∧ contiguity required !! i = Some r ∧
            (a = r ∨ (a = Some true ∧ r = Some false))).
Proof.
  unfold isCompliantWith.
  case_bool_decide as Hempty; [naive_solver|].
  case_bool_decide as Hne; [naive_solver|].
  rewrite compliant_loop_true. split.
  - intros H. right. split; [done|]. intros i Hi.
    destruct (H i) as (a & r & ? & ? & Hc); [apply elem_of_seq; lia|].
    apply contiguityIsCompliant_true in Hc. eauto.
  - intros [?|[_ H]]; [done|]. intros i Hi%elem_of_seq.
    destruct (H i) as (a & r & ? & ? & Hc); [lia|].
    apply contiguityIsCompliant_true in Hc. eauto.
Qed.

Lemma isCompliantWith_true_witness :
  isCompliantWith
    {| allocation_domain := [Ex.dim 1; Ex.bcast 2];
       contiguity := [Some true; None] |}
    {| allocation_domain := [Ex.dim 1; Ex.bcast 2];
       contiguity := [Some false; None] |} = Ok true.
Proof.
  apply isCompliantWith_true. right. split; [reflexivity|].
  intros [|[|i]] Hi; cbn in *; [eauto 10 | eauto 10 | lia].
Defined.

(** X2: a layout with one contiguity flag per allocation dimension complies
    with itself. *)
Theorem isCompliantWith_refl (L : Layout) :
  layout_wf L → isCompliantWith L L = Ok true.
Proof.
  unfold layout_wf, isCompliantWith. intros Hwf.
  case_bool_decide; [done|]. rewrite bool_decide_eq_false_2 by naive_solver.
  apply compliant_loop_true. intros i Hi%elem_of_seq.
  destruct (lookup_lt_is_Some_2 (contiguity L) i) as [a Ha]; [lia|].
  exists a, a. split_and!; [done | done |].
  apply contiguityIsCompliant_true. by left.
Qed.

Lemma isCompliantWith_refl_witness :
  isCompliantWith (Ex.layout_of Ex.tA) (Ex.layout_of Ex.tA) = Ok true.
Proof. apply isCompliantWith_refl. reflexivity. Defined.

(** X3: compliance composes: a layout that complies with a second one, which
    complies with a third, complies with the third. *)
Theorem isCompliantWith_trans (L1 L2 L3 : Layout) :
  isCompliantWith L1 L2 = Ok true →
  isCompliantWith L2 L3 = Ok true →
  isCompliantWith L1 L3 = Ok true.
Proof.
  unfold isCompliantWith.
  case_bool_decide as He2.
  - intros _. case_bool_decide as He3; [done|].
    case_bool_decide as Hne; [done|]. congruence.
  - case_bool_decide as H12; [done|]. intros Hloop12.
    case_bool_decide as He3; [done|].
    case_bool_decide as H23; [done|]. intros Hloop23.
    rewrite bool_decide_eq_false_2 by (intros Hne; apply Hne; congruence).
    rewrite compliant_loop_true in Hloop12, Hloop23 |- *.
    intros i Hi.
    destruct (Hloop12 i Hi) as (a & b & Ha & Hb & Hab).
    destruct (Hloop23 i) as (b' & c & Hb' & Hc & Hbc); [by rewrite <- H12|].
    rewrite Hb in Hb'. injection Hb' as <-.
    exists a, c. split_and!; [done | done |].
    rewrite contiguityIsCompliant_true in Hab, Hbc |- *.
    naive_solver.
Qed.

Lemma isCompliantWith_trans_witness :
  isCompliantWith
    {| allocation_domain := [Ex.dim 1]; contiguity := [Some true] |}
    {| allocation_domain := [Ex.dim 1]; contiguity := [Some false] |}
  = Ok true.
Proof.
  apply (isCompliantWith_trans _
           {| allocation_domain := [Ex.dim 1]; contiguity := [Some true] |});
    reflexivity.
Defined.

(** ** Registration and the chain walk *)

(** X4: after a successful [add] the layout and the source of the alias are
    the registered ones, every other tensor keeps its preferred layout and
    its source, and [getNearestAliasedIo] answers as before. *)
Theorem add_then_lookup (alias source : TensorView) (layout : Layout)
    (st st' : AliasAnalysisResult) :
  add alias source layout st = Ok st' →
  preferredLayout st' (ValTensor alias) = Ok layout ∧
  source_of st' alias = Some source ∧
  (∀ t, t ≠ alias →
        preferredLayout st' (ValTensor t) = preferredLayout st (ValTensor t) ∧
        source_of st' t = source_of st t) ∧
  (∀ t, getNearestAliasedIo st' t = getNearestAliasedIo st t).
Proof.
  intros [_ ->]%add_Ok.
  unfold preferredLayout, source_of, getNearestAliasedIo. cbn.
  rewrite lookup_insert_eq. split_and!; [done | done | | done].
  intros t Hne. by rewrite lookup_insert_ne.
Qed.

Lemma add_then_lookup_witness :
  ∃ st', add Ex.tA Ex.tB (Ex.layout_of Ex.tA) empty_analysis = Ok st' ∧
         preferredLayout st' (ValTensor Ex.tA) = Ok (Ex.layout_of Ex.tA).
Proof.
  destruct (add Ex.tA Ex.tB (Ex.layout_of Ex.tA) empty_analysis)
    as [st'|e] eqn:Hadd.
  - exists st'. split; [reflexivity|].
    exact (proj1 (add_then_lookup _ _ _ _ _ Hadd)).
  - exfalso. unfold add in Hadd. cbn in Hadd.
    rewrite lookup_empty in Hadd. discriminate Hadd.
Defined.

(** X5: the walk returns a tensor exactly when that tensor is a graph input
    or output reached from the argument through hidden tensors only, within
    the iterations allowed; it returns null exactly when the argument has no
    source or such a chain ends in a hidden tensor without a source. *)
Theorem findNearestAliasedIo_result (fuel : nat) (st : AliasAnalysisResult)
    (t : TensorView) :
  (∀ r, findNearestAliasedIo fuel st t = Ok (Some r) ↔
        ∃ mids, aliases_via st t mids r ∧ is_io r = true ∧
                length mids < fuel) ∧
  (findNearestAliasedIo fuel st t = Ok None ↔
     (source_of st t = None ∧ 0 < fuel) ∨
     ∃ mids r, aliases_via st t mids r ∧ is_io r = false ∧
               source_of st r = None ∧ S (length mids) < fuel).
Proof.
  split.
  - intros r. split.
    + revert t. induction fuel as [|fuel IH]; intros t H; [done|].
      rewrite findNearestAliasedIo_S in H.
      destruct (source_of st t) as [s|] eqn:Hs; [|done].
      destruct (is_io s) eqn:Hio.
      * injection H as <-. exists []. split_and!; [by constructor | done |].
        cbn. lia.
      * destruct (IH _ H) as (mids & Hvia & Hr & Hlen).
        exists (s :: mids). split_and!; [by constructor | done | cbn; lia].
    + intros (mids & Hvia & Hr & Hlen).
      replace fuel with (S (length mids) + (fuel - S (length mids))) by lia.
      by rewrite (findNearestAliasedIo_via _ _ _ _ Hvia), Hr.
  - split.
    + revert t. induction fuel as [|fuel IH]; intros t H; [done|].
      rewrite findNearestAliasedIo_S in H.
      destruct (source_of st t) as [s|] eqn:Hs; [|left; split; [done|lia]].
      destruct (is_io s) eqn:Hio; [done|]. right.
      destruct (IH _ H) as [[Hnone Hpos]|(mids & r & Hvia & Hr & Hnone & Hlen)].
      * exists [], s. split_and!; [by constructor | done | done | cbn; lia].
      * exists (s :: mids), r.
        split_and!; [by constructor | done | done | cbn; lia].
    + intros [[Hnone Hpos]|(mids & r & Hvia & Hr & Hnone & Hlen)].
      * destruct fuel as [|fuel]; [lia|].
        by rewrite findNearestAliasedIo_S, Hnone.
      * replace fuel with (S (length mids) + S (fuel - S (S (length mids))))
          by lia.
        rewrite (findNearestAliasedIo_via _ _ _ _ Hvia), Hr.
        by rewrite findNearestAliasedIo_S, Hnone.
Qed.

Lemma findNearestAliasedIo_result_witness :
  ∃ mids, aliases_via Ex.st_chain Ex.tA mids Ex.tC ∧ is_io Ex.tC = true ∧
          length mids < 2.
Proof.
  apply (proj1 (findNearestAliasedIo_result 2 Ex.st_chain Ex.tA) Ex.tC).
  vm_compute. reflexivity.
Defined.

(** X6: when every registered source precedes its alias in some order, the
    walk from a tensor finishes within as many iterations as the tensor's
    rank plus one. *)
Theorem findNearestAliasedIo_terminates (rank : TensorView → nat)
    (st : AliasAnalysisResult) :
  (∀ a s L, alias_to_source_ st !! a = Some (s, L) → rank s < rank a) →
  ∀ fuel t, rank t < fuel → ∃ r, findNearestAliasedIo fuel st t = Ok r.
Proof.
  intros Hrank. induction fuel as [|fuel IH]; intros t Hlt; [lia|].
  rewrite findNearestAliasedIo_S.
  destruct (source_of st t) as [s|] eqn:Hs; [|eauto].
  destruct (is_io s); [eauto|].
  apply source_of_Some in Hs as [L HL]. apply Hrank in HL.
  apply IH. lia.
Qed.

(** X7: a tensor from which every source is again a hidden tensor with a
    source is never resolved: the loop does not finish, however many
    iterations it is given. *)
Theorem findNearestAliasedIo_diverges (P : TensorView → Prop)
    (st : AliasAnalysisResult) :
  (∀ x, P x → ∃ s, source_of st x = Some s ∧ is_io s = false ∧ P s) →
  ∀ fuel t, P t → findNearestAliasedIo fuel st t = Err OutOfFuel.
Proof.
  intros Hclosed. induction fuel as [|fuel IH]; intros t Ht; [done|].
  rewrite findNearestAliasedIo_S.
  destruct (Hclosed t Ht) as (s & -> & -> & Hs). by apply IH.
Qed.

Lemma findNearestAliasedIo_terminates_witness :
  ∃ r, findNearestAliasedIo 4 Ex.st_chain Ex.tA = Ok r.
Proof.
  apply (findNearestAliasedIo_terminates (λ t, Pos.to_nat (tv_name t))).
  - intros a s L. unfold Ex.st_chain, alias_to_source_.
    rewrite !lookup_insert. repeat case_decide.
    + subst a. intros [= <- _]. vm_compute. lia.
    + subst a. intros [= <- _]. vm_compute. lia.
    + rewrite lookup_empty. discriminate.
  - vm_compute. lia.
Defined.

Lemma findNearestAliasedIo_diverges_witness :
  findNearestAliasedIo 5 Ex.st_loop Ex.tB = Err OutOfFuel.
Proof.
  apply (findNearestAliasedIo_diverges (λ t, t = Ex.tB)); [|reflexivity].
  intros x ->. exists Ex.tB. split; [|split; reflexivity].
  vm_compute. reflexivity.
Defined.

(** ** The driver *)

Lemma finalize_lookup fuel fusion flag st st' :
  finalize fuel fusion flag st = Ok st' →
  alias_to_source_ st' = alias_to_source_ st ∧
  (∀ out, ValTensor out ∈ outputs fusion →
          ∃ d, finalize_decision fuel flag st out = Ok d) ∧
  ∀ t, out_to_root_ st' !! t =
    match finalize_decision fuel flag st t with
    | Ok (Some root) =>
        if decide (t ∈ filterByType_TensorView (outputs fusion))
        then Some root else out_to_root_ st !! t
    | _ => out_to_root_ st !! t
    end.
Proof.
  intros Hrun. unfold finalize in Hrun.
  pose proof (finalize_loop_defined _ _ _ _ _ Hrun) as Hdef.
  destruct (finalize_loop_spec fuel flag
              (filterByType_TensorView (outputs fusion)) st Hdef)
    as (st'' & Hrun' & Halias & Hroots).
  rewrite Hrun in Hrun'. injection Hrun' as <-.
  split_and!; [done | | done].
  intros out Hout. apply Hdef. by apply filterByType_TensorView_elem.
Qed.

Lemma finalize_decision_Some fuel flag st out root :
  finalize_decision fuel flag st out = Ok (Some root) ↔
  findNearestAliasedIo fuel st out = Ok (Some root) ∧
  ∃ L, preferredLayout st (ValTensor out) = Ok L ∧
       okToRelayout out L flag = Ok true.
Proof.
  unfold finalize_decision.
  destruct (findNearestAliasedIo fuel st out) as [[r|]|];
    cbn [mbind res_bind]; [|split; [done | by intros [? _]]..].
  destruct (preferredLayout st (ValTensor out)) as [L|];
    cbn [mbind res_bind]; [|split; [done | by intros (_ & ? & ? & _)]].
  destruct (okToRelayout out L flag) as [b|] eqn:Hb; cbn [mbind res_bind].
  - split.
    + destruct b; [|done]. intros [= <-]. eauto.
    + intros ([= <-] & L' & [= <-] & Hok). rewrite Hb in Hok.
      by injection Hok as ->.
  - split; [done|]. intros (_ & L' & [= <-] & Hok). by rewrite Hb in Hok.
Qed.

Lemma okToRelayout_override out L b :
  okToRelayout out L false = Ok b →
  ∃ b', okToRelayout out L true = Ok b' ∧ (b = true → b' = true).
Proof.
  unfold okToRelayout, getMaybeAllocationDomain.
  case_bool_decide as Hempty; [|eauto].
  intros _. exists true. split; [|done].
  unfold isCompliantWith. cbn. by rewrite Hempty.
Qed.

Section DriverFacts.
Variable mapProducerToConsumer :
  TensorView → TensorView → IterDomain → option IterDomain.
Variable mapConsumerToProducer :
  TensorView → TensorView → IterDomain → option IterDomain.
Variable getAllExprsBetween :
  list IterDomain → list IterDomain → list IdExpr.

Local Abbreviation dispatch' :=
  (dispatch mapProducerToConsumer mapConsumerToProducer getAllExprsBetween).
Local Abbreviation dispatch_all' :=
  (dispatch_all mapProducerToConsumer mapConsumerToProducer
     getAllExprsBetween).
Local Abbreviation findAliases' :=
  (findAliases mapProducerToConsumer mapConsumerToProducer
     getAllExprsBetween).

(** A rule that returns has left the result alone or registered its output
    as an alias of its tensor input. *)
Lemma dispatch_registers expr st st' :
  dispatch' expr st = Ok st' →
  st' = st ∨
  ∃ alias source L,
    aliasing_pair expr = Some (alias, source) ∧
    add alias source L st = Ok st'.
Proof.
  intros H.
  destruct expr as [inp out|[inp|n] out|inp out|[inp|n] out flags
                    |[inp|n] out|]; cbn in H;
    try (left; by injection H).
  - apply handle_ViewOp_Ok in H as [?|(L & _ & ?)]; [by left|].
    right. by exists out, inp, L.
  - unfold handle_LoadStoreOp in H. cbn in H. inv_bind H.
    destruct (computePermutation _ _); cbn in H; [|left; by injection H].
    inv_bind H. right. by exists out, inp, a0.
  - apply handle_SliceOp_Ok in H as [[? _]|(? & ? & L & H)]; [by left|].
    right. exists out, inp, L. split; [done|]. apply H.
  - unfold handle_BroadcastOp in H. cbn in H. inv_bind H.
    destruct (computePermutation _ _); cbn in H; [|left; by injection H].
    inv_bind H. right. eexists out, inp, _. by split.
  - unfold handle_SqueezeOp in H. cbn in H. inv_bind H.
    destruct (computePermutation _ _); cbn in H; [|left; by injection H].
    inv_bind H. right. by exists out, inp, a0.
Qed.

(** X8: the traversal only ever adds entries.  It leaves [out_to_root_]
    alone, keeps every entry of [alias_to_source_] as it is, adds at most
    one entry per operation, and each entry it adds maps the output of one
    of the operations to the tensor input of that operation. *)
Theorem dispatch_all_registers (es : list Expr)
    (st st' : AliasAnalysisResult) :
  dispatch_all' es st = Ok st' →
  out_to_root_ st' = out_to_root_ st ∧
  (∀ a p, alias_to_source_ st !! a = Some p →
          alias_to_source_ st' !! a = Some p) ∧
  (∀ a s L, alias_to_source_ st' !! a = Some (s, L) →
            alias_to_source_ st !! a = Some (s, L) ∨
            ∃ e, e ∈ es ∧ aliasing_pair e = Some (a, s)) ∧
  size (alias_to_source_ st') ≤ size (alias_to_source_ st) + length es.
Proof.
  revert st. induction es as [|e es IH]; intros st H; cbn in H.
  - injection H as <-. split_and!; [done | done | eauto | lia].
  - inv_bind H. rename a into st1.
    destruct (IH _ H) as (Hroot & Hkeep & Hnew & Hsize).
    apply dispatch_registers in Ha
      as [->|(alias & source & L & Hpair & [Hfree ->]%add_Ok)].
    + split_and!; [done | done | | cbn; lia].
      intros a s L HL. destruct (Hnew a s L HL) as [?|(e' & ? & ?)];
        [by left|]. right. exists e'. split; [by right | done].
    + cbn in *. split_and!.
      * done.
      * intros a p Hp. apply Hkeep. rewrite lookup_insert_ne; [done|].
        intros <-. by rewrite Hfree in Hp.
      * intros a s L' HL.
        destruct (Hnew a s L' HL) as [Hin|(e' & ? & ?)].
        -- apply lookup_insert_Some in Hin as [[<- [= <- _]]|[_ ?]];
             [|by left].
           right. exists e. split; [left | done].
        -- right. exists e'. split; [by right | done].
      * rewrite map_size_insert_None in Hsize by done. lia.
Qed.

Lemma dispatch_all_out_to_root es st st' :
  dispatch_all' es st = Ok st' → out_to_root_ st' = out_to_root_ st.
Proof.
  revert st. induction es as [|e es IH]; intros st H; cbn in H.
  - by injection H as <-.
  - inv_bind H. rewrite (IH _ H).
    apply dispatch_registers in Ha as [->|(? & ? & ? & _ & [_ ->]%add_Ok)];
      done.
Qed.

(** X9: in the result of [findAliases], [getNearestAliasedIo] gives a root
    for a tensor exactly when the tensor is an output of the fusion, the
    walk from it ends in that root, and its preferred layout passes
    [okToRelayout]; the root is then a graph input or output. *)
Theorem findAliases_roots (fuel : nat) (fusion : Fusion) (flag : bool)
    (st : AliasAnalysisResult) :
  findAliases' fuel fusion flag = Ok st →
  ∀ out root,
    (getNearestAliasedIo st out = Some root ↔
       ValTensor out ∈ outputs fusion ∧
       findNearestAliasedIo fuel st out = Ok (Some root) ∧
       ∃ L, preferredLayout st (ValTensor out) = Ok L ∧
            okToRelayout out L flag = Ok true) ∧
    (getNearestAliasedIo st out = Some root → is_io root = true).
Proof.
  unfold findAliases. intros H. inv_bind H. rename a into st0.
  apply dispatch_all_out_to_root in Ha.
  apply finalize_lookup in H as (Halias & _ & Hroots).
  assert (Hempty : ∀ t, out_to_root_ st0 !! t = None).
  { intros t. rewrite Ha. apply lookup_empty. }
  assert (Hdec : ∀ out, finalize_decision fuel flag st out
                        = finalize_decision fuel flag st0 out).
  { intros out. by apply finalize_decision_ext. }
  intros out root.
  assert (Hiff : getNearestAliasedIo st out = Some root ↔
                 ValTensor out ∈ outputs fusion ∧
                 finalize_decision fuel flag st out = Ok (Some root)).
  { unfold getNearestAliasedIo. rewrite Hroots, Hdec, <- filterByType_TensorView_elem.
    destruct (finalize_decision fuel flag st0 out) as [[r|]|];
      rewrite ?Hempty; [|naive_solver..].
    case_decide; rewrite ?Hempty; naive_solver. }
  rewrite Hiff, finalize_decision_Some. split; [naive_solver|].
  intros (_ & Hwalk & _). by eapply findNearestAliasedIo_is_io.
Qed.

(** X10: allowing the override of an empty allocation domain never loses an
    alias: when [findAliases] returns without it, it returns with it, with
    the same registrations and with every root that was found before. *)
Theorem findAliases_override_monotone (fuel : nat) (fusion : Fusion)
    (s1 : AliasAnalysisResult) :
  findAliases' fuel fusion false = Ok s1 →
  ∃ s2, findAliases' fuel fusion true = Ok s2 ∧
        alias_to_source_ s2 = alias_to_source_ s1 ∧
        ∀ out root, getNearestAliasedIo s1 out = Some root →
                    getNearestAliasedIo s2 out = Some root.
Proof.
  unfold findAliases. intros H. inv_bind H. rename a into st0.
  rewrite Ha. cbn [mbind res_bind].
  pose proof (dispatch_all_out_to_root _ _ _ Ha) as Hroot0.
  apply finalize_lookup in H as (Halias1 & Hdef1 & Hroots1).
  assert (Hdec : ∀ out d,
             finalize_decision fuel false st0 out = Ok d →
             ∃ d', finalize_decision fuel true st0 out = Ok d' ∧
                   (∀ r, d = Some r → d' = Some r)).
  { intros out d. unfold finalize_decision.
    destruct (findNearestAliasedIo fuel st0 out) as [[r|]|];
      cbn [mbind res_bind]; [|eauto|done].
    destruct (preferredLayout st0 (ValTensor out)) as [L|];
      cbn [mbind res_bind]; [|done].
    destruct (okToRelayout out L false) as [b|] eqn:Hb;
      cbn [mbind res_bind]; [|done].
    destruct (okToRelayout_override _ _ _ Hb) as (b' & -> & Himp).
    cbn [mbind res_bind].
    intros [= <-]. eexists. split; [done|].
    intros r'. destruct b; [|done]. by rewrite Himp. }
  destruct (finalize_loop_spec fuel true
              (filterByType_TensorView (outputs fusion)) st0)
    as (s2 & Hrun2 & Halias2 & Hroots2).
  { intros out Hout%filterByType_TensorView_elem.
    destruct (Hdef1 out Hout) as [d Hd].
    destruct (Hdec out d Hd) as (d' & ? & _). eauto. }
  exists s2. split_and!; [done | congruence |].
  intros out root. unfold getNearestAliasedIo.
  assert (Hempty : out_to_root_ st0 !! out = None)
    by (rewrite Hroot0; apply lookup_empty).
  rewrite Hroots1, Hroots2, Hempty.
  destruct (finalize_decision fuel false st0 out) as [[r|]|] eqn:Hd;
    [|done..].
  destruct (Hdec out _ Hd) as (d' & -> & Himp).
  rewrite (Himp r eq_refl). by case_decide.
Qed.

(** X11: [finalize] is idempotent: run again on its own result, it returns
    that result unchanged. *)
Theorem finalize_idempotent (fuel : nat) (fusion : Fusion) (flag : bool)
    (st st' : AliasAnalysisResult) :
  finalize fuel fusion flag st = Ok st' →
  finalize fuel fusion flag st' = Ok st'.
Proof.
  intros Hrun.
  apply finalize_lookup in Hrun as (Halias & Hdef & Hroots).
  unfold finalize.
  destruct (finalize_loop_spec fuel flag
              (filterByType_TensorView (outputs fusion)) st')
    as (st'' & Hrun' & Halias' & Hroots').
  { intros out Hout%filterByType_TensorView_elem.
    rewrite (finalize_decision_ext _ _ _ _ _ Halias). by apply Hdef. }
  rewrite Hrun'. f_equal.
  destruct st' as [a' r'], st'' as [a'' r'']. cbn in *. f_equal; [done|].
  apply map_eq. intros t. rewrite Hroots'.
  rewrite (finalize_decision_ext _ _ {| alias_to_source_ := a';
                                        out_to_root_ := r' |} st t Halias).
  rewrite (Hroots t).
  destruct (finalize_decision fuel flag st t) as [[root|]|]; try done.
  by case_decide.
Qed.
End DriverFacts.

Lemma dispatch_all_registers_witness :
  ∃ st', dispatch_all Ex.p2c Ex.c2p Ex.between [SliceOp Ex.t3 Ex.s3]
           empty_analysis = Ok st' ∧
         out_to_root_ st' = out_to_root_ empty_analysis ∧
         size (alias_to_source_ st') ≤ 1.
Proof.
  assert (Hval :
    (st ← dispatch_all Ex.p2c Ex.c2p Ex.between [SliceOp Ex.t3 Ex.s3]
            empty_analysis;
     Ok (has_value (alias_to_source_ st !! Ex.s3))) = Ok true)
    by (vm_compute; reflexivity).
  destruct (dispatch_all Ex.p2c Ex.c2p Ex.between [SliceOp Ex.t3 Ex.s3]
              empty_analysis) as [st'|e] eqn:Hrun;
    [|discriminate Hval].
  destruct (dispatch_all_registers _ _ _ _ _ _ Hrun) as (Hroot & _ & _ & Hsize).
  exists st'. split; [reflexivity|]. split; [exact Hroot | exact Hsize].
Defined.

Lemma findAliases_roots_witness :
  ∃ st, findAliases Ex.p2c Ex.c2p Ex.between 2 Ex.fusion_slice true = Ok st ∧
        getNearestAliasedIo st Ex.s3 = Some Ex.t3 ∧
        is_io Ex.t3 = true.
Proof.
  assert (Hval :
    (st ← findAliases Ex.p2c Ex.c2p Ex.between 2 Ex.fusion_slice true;
     Ok (getNearestAliasedIo st Ex.s3)) = Ok (Some Ex.t3))
    by (vm_compute; reflexivity).
  destruct (findAliases Ex.p2c Ex.c2p Ex.between 2 Ex.fusion_slice true)
    as [st|e] eqn:Hrun; cbn [mbind res_bind] in Hval; [|discriminate Hval].
  injection Hval as Hroot.
  exists st. split; [reflexivity|]. split; [exact Hroot|].
  exact (proj2 (findAliases_roots _ _ _ _ _ _ _ Hrun Ex.s3 Ex.t3) Hroot).
Defined.

Lemma findAliases_override_monotone_witness :
  ∃ s2, findAliases Ex.p2c Ex.c2p Ex.between 2 Ex.fusion_slice true = Ok s2.
Proof.
  assert (Hval :
    (st ← findAliases Ex.p2c Ex.c2p Ex.between 2 Ex.fusion_slice false;
     Ok (getNearestAliasedIo st Ex.s3)) = Ok None)
    by (vm_compute; reflexivity).
  destruct (findAliases Ex.p2c Ex.c2p Ex.between 2 Ex.fusion_slice false)
    as [s1|e] eqn:Hrun; [|discriminate Hval].
  destruct (findAliases_override_monotone _ _ _ _ _ _ Hrun) as (s2 & H2 & _).
  exists s2. exact H2.
Defined.

Lemma finalize_idempotent_witness :
  ∃ st', finalize 2 (Ex.fusion_of [Ex.tA]) false Ex.st_chain = Ok st' ∧
         finalize 2 (Ex.fusion_of [Ex.tA]) false st' = Ok st'.
Proof.
  assert (Hval :
    (st ← finalize 2 (Ex.fusion_of [Ex.tA]) false Ex.st_chain;
     Ok (out_to_root_ st !! Ex.tA)) = Ok (Some Ex.tC))
    by (vm_compute; reflexivity).
  destruct (finalize 2 (Ex.fusion_of [Ex.tA]) false Ex.st_chain)
    as [st'|e] eqn:Hrun; [|discriminate Hval].
  exists st'. split; [reflexivity|].
  exact (finalize_idempotent _ _ _ _ _ Hrun).
Defined.

(** ** The permute, broadcast and squeeze rules *)

Lemma zip_drop_skip {A B} (P : A * B → Prop) `{∀ p, Decision (P p)}
    (a : A) (l : list A) (c : list B) i :
  (∀ b, ¬ P (a, b)) →
  filter P (zip (a :: l) (drop i c)) = filter P (zip l (drop (S i) c)).
Proof.
  intros Hskip. destruct (c !! i) as [b|] eqn:Hb.
  - rewrite (drop_S _ _ _ Hb). cbn [zip zip_with].
    rewrite filter_cons, decide_False by apply Hskip. done.
  - apply lookup_ge_None in Hb. rewrite !drop_ge by lia.
    by destruct l.
Qed.

(** The loop shared by the three rules visits the allocation dimensions in
    order and appends, for each one that is not skipped, its image and the
    contiguity found at its index. *)
Lemma carry_over_spec skip p2c :
  ∀ alloc i contig acc L,
    carry_over skip p2c i alloc contig acc = Ok L →
    ∃ images,
      Forall2 (λ id out_id, p2c id = Some out_id)
        (filter (λ p, skip p.1 = false) (zip alloc (drop i contig))).*1
        images ∧
      allocation_domain L = allocation_domain acc ++ images ∧
      contiguity L =
        contiguity acc ++
        (filter (λ p, skip p.1 = false) (zip alloc (drop i contig))).*2.
Proof.
  induction alloc as [|id alloc IH]; intros i contig acc L H; cbn in H.
  - injection H as <-. exists []. cbn. rewrite !app_nil_r.
    split; [constructor | done].
  - destruct (skip id) eqn:Hskip.
    + rewrite zip_drop_skip by (intros b; cbn; congruence). by apply IH.
    + inv_bind H. rename a into out_id. inv_bind H. rename a into c.
      apply map_at_Ok in Ha. apply at_index_Ok in Ha0.
      rewrite (drop_S _ _ _ Ha0). cbn [zip zip_with].
      rewrite filter_cons, decide_True by done.
      apply IH in H as (images & Himg & Halloc & Hcontig). cbn in *.
      exists (out_id :: images). split; [by constructor|].
      rewrite Halloc, Hcontig, <- !app_assoc. done.
Qed.

(** The loop returns when every dimension that is not skipped has an image
    and the contiguity covers the allocation domain. *)
Lemma carry_over_total skip p2c :
  ∀ alloc i contig acc,
    (∀ id, id ∈ alloc → skip id = false → is_Some (p2c id)) →
    i + length alloc ≤ length contig →
    ∃ L, carry_over skip p2c i alloc contig acc = Ok L.
Proof.
  induction alloc as [|id alloc IH]; intros i contig acc Hmap Hlen; cbn;
    [eauto|].
  cbn in Hlen.
  destruct (skip id) eqn:Hskip.
  - apply IH; [|lia]. intros id' Hel. apply Hmap. by right.
  - destruct (Hmap id) as [out_id Hout]; [left | done |].
    unfold map_at. rewrite Hout. cbn.
    destruct (at_index_lt contig i) as (c & -> & _); [lia|]. cbn.
    apply IH; [|lia]. intros id' Hel. apply Hmap. by right.
Qed.

(** A dimension that is not skipped and has no image makes the loop throw
    [std::out_of_range]. *)
Lemma carry_over_unmapped skip p2c :
  ∀ alloc i contig acc id,
    i + length alloc ≤ length contig →
    id ∈ alloc → skip id = false → p2c id = None →
    carry_over skip p2c i alloc contig acc = Err OutOfRange.
Proof.
  induction alloc as [|id0 alloc IH]; intros i contig acc id Hlen Hel Hskip Hnone.
  - by apply elem_of_nil in Hel.
  - cbn in Hlen. cbn [carry_over].
    destruct (skip id0) eqn:Hskip0.
    + apply elem_of_cons in Hel as [->|Hel]; [congruence|].
      eapply IH; [lia | done | done | done].
    + unfold map_at. destruct (p2c id0) as [out_id|] eqn:Hout; [|done].
      cbn [mbind res_bind].
      destruct (at_index_lt contig i) as (c & -> & _); [lia|].
      cbn [mbind res_bind].
      apply elem_of_cons in Hel as [->|Hel]; [congruence|].
      eapply IH; [lia | done | done | done].
Qed.

Lemma append_broadcast_dims_spec flags :
  ∀ out_rfactor i acc,
    append_broadcast_dims flags i out_rfactor acc =
    {| allocation_domain :=
         allocation_domain acc ++ new_broadcast_dims flags i out_rfactor;
       contiguity :=
         contiguity acc ++
         replicate (length (new_broadcast_dims flags i out_rfactor)) None |}.
Proof.
  induction out_rfactor as [|id l IH]; intros i acc; cbn.
  - destruct acc. cbn. by rewrite !app_nil_r.
  - rewrite IH. destruct (flags i); cbn; [|done].
    by rewrite <- !app_assoc.
Qed.

Section RuleLayouts.
Variable mapProducerToConsumer :
  TensorView → TensorView → IterDomain → option IterDomain.

Local Abbreviation handle_LoadStoreOp' :=
  (handle_LoadStoreOp mapProducerToConsumer).
Local Abbreviation handle_BroadcastOp' :=
  (handle_BroadcastOp mapProducerToConsumer).
Local Abbreviation handle_SqueezeOp' :=
  (handle_SqueezeOp mapProducerToConsumer).

(** X12: the layout the permute rule registers.  When the rule aliases, the
    output is entered with the input tensor as its source; its allocation
    domain lists, in the allocation order of the input's preferred layout,
    the images of the non-reduction dimensions under the pairwise map, and
    every image keeps the contiguity flag of its dimension.  The logical
    order of the output plays no part. *)
Theorem handle_LoadStoreOp_layout (inp out : TensorView)
    (st st' : AliasAnalysisResult) (in_layout : Layout) :
  preferredLayout st (ValTensor inp) = Ok in_layout →
  computePermutation (getMaybeRFactorDomain inp) (allocation_domain in_layout)
    ≠ None →
  handle_LoadStoreOp' (ValTensor inp) out st = Ok st' →
  ∃ L,
    alias_to_source_ st' !! out = Some (inp, L) ∧
    Forall2 (λ id out_id, mapProducerToConsumer inp out id = Some out_id)
      (kept_dims isReduction in_layout).*1 (allocation_domain L) ∧
    contiguity L = (kept_dims isReduction in_layout).*2.
Proof.
  intros Hpref Hperm H. unfold handle_LoadStoreOp in H.
  cbn [as_TensorView] in H. rewrite Hpref in H. cbn [mbind res_bind] in H.
  destruct (computePermutation _ _); [|done].
  cbn [has_value negb] in H. inv_bind H. rename a into L.
  apply carry_over_spec in Ha as (images & Himg & Halloc & Hcontig).
  apply add_Ok in H as [_ ->]. exists L. cbn in *.
  split_and!; [apply lookup_insert_eq | by rewrite Halloc | done].
Qed.

(** X13: the outcomes of the permute rule once the input's preferred
    layout is a permutation of its logical domain and is well formed.  A
    non-reduction allocation dimension without an image under the pairwise
    map is fatal ([std::out_of_range]); otherwise the rule registers the
    output when it has no source yet and is fatal when it has one.  There
    is no soft refusal on this path. *)
Theorem handle_LoadStoreOp_outcome (inp out : TensorView)
    (st : AliasAnalysisResult) (in_layout : Layout) :
  preferredLayout st (ValTensor inp) = Ok in_layout →
  computePermutation (getMaybeRFactorDomain inp) (allocation_domain in_layout)
    ≠ None →
  layout_wf in_layout →
  ((∃ id, id ∈ allocation_domain in_layout ∧ isReduction id = false ∧
          mapProducerToConsumer inp out id = None) →
   handle_LoadStoreOp' (ValTensor inp) out st = Err OutOfRange) ∧
  ((∀ id, id ∈ allocation_domain in_layout → isReduction id = false →
          is_Some (mapProducerToConsumer inp out id)) →
   (alias_to_source_ st !! out = None →
    ∃ st', handle_LoadStoreOp' (ValTensor inp) out st = Ok st' ∧ st' ≠ st) ∧
   (alias_to_source_ st !! out ≠ None →
    handle_LoadStoreOp' (ValTensor inp) out st = Err NvfError)).
Proof.
  intros Hpref Hperm Hwf. unfold handle_LoadStoreOp.
  cbn [as_TensorView]. rewrite Hpref. cbn [mbind res_bind].
  destruct (computePermutation _ _); [|done]. cbn [has_value negb].
  unfold layout_wf in Hwf. split.
  - intros (id & Hel & Hred & Hnone).
    rewrite (carry_over_unmapped _ _ _ _ _ _ id); [done | lia | done..].
  - intros Hmap.
    destruct (carry_over_total isReduction (mapProducerToConsumer inp out)
                (allocation_domain in_layout) 0 (contiguity in_layout)
                {| allocation_domain := []; contiguity := [] |})
      as [L HL]; [done | lia |].
    rewrite HL. cbn [mbind res_bind]. unfold add. split.
    + intros Hnone. rewrite Hnone. eexists. split; [done|].
      intros Heq. apply (f_equal (λ s, alias_to_source_ s !! out)) in Heq.
      cbn in Heq. rewrite lookup_insert_eq, Hnone in Heq. done.
    + intros Hsome. by destruct (alias_to_source_ st !! out).
Qed.

(** X14: the layout the broadcast rule registers: the dimensions carried
    over from the input as in the permute rule, followed by the dimensions
    of the output's logical domain that the operation marks as new
    broadcasts, in logical order and with no contiguity. *)
Theorem handle_BroadcastOp_layout (inp out : TensorView)
    (isBroadcastDim : nat → bool) (st st' : AliasAnalysisResult)
    (in_layout : Layout) :
  preferredLayout st (ValTensor inp) = Ok in_layout →
  computePermutation (getMaybeRFactorDomain inp) (allocation_domain in_layout)
    ≠ None →
  handle_BroadcastOp' (ValTensor inp) out isBroadcastDim st = Ok st' →
  ∃ L images,
    alias_to_source_ st' !! out = Some (inp, L) ∧
    Forall2 (λ id out_id, mapProducerToConsumer inp out id = Some out_id)
      (kept_dims isReduction in_layout).*1 images ∧
    allocation_domain L =
      images ++ new_broadcast_dims isBroadcastDim 0 (getMaybeRFactorDomain out) ∧
    contiguity L =
      (kept_dims isReduction in_layout).*2 ++
      replicate
        (length (new_broadcast_dims isBroadcastDim 0
                   (getMaybeRFactorDomain out))) None.
Proof.
  intros Hpref Hperm H. unfold handle_BroadcastOp in H.
  cbn [as_TensorView] in H. rewrite Hpref in H. cbn [mbind res_bind] in H.
  destruct (computePermutation _ _); [|done].
  cbn [has_value negb] in H. inv_bind H. rename a into L0.
  apply carry_over_spec in Ha as (images & Himg & Halloc & Hcontig).
  apply add_Ok in H as [_ ->]. rewrite append_broadcast_dims_spec.
  eexists _, images. cbn in *.
  split_and!; [apply lookup_insert_eq | done | by rewrite Halloc
              | by rewrite Hcontig].
Qed.

(** X15: the squeeze rule drops exactly the allocation dimensions that the
    pairwise map leaves without an image and carries the others over with
    their contiguity.  Unlike the permute rule it never fails on a missing
    image: with a well-formed input layout it returns whenever the output
    has no source yet. *)
Theorem handle_SqueezeOp_layout (inp out : TensorView)
    (st : AliasAnalysisResult) (in_layout : Layout) :
  preferredLayout st (ValTensor inp) = Ok in_layout →
  computePermutation (getMaybeRFactorDomain inp) (allocation_domain in_layout)
    ≠ None →
  layout_wf in_layout →
  alias_to_source_ st !! out = None →
  ∃ st' L,
    handle_SqueezeOp' (ValTensor inp) out st = Ok st' ∧
    alias_to_source_ st' !! out = Some (inp, L) ∧
    Forall2 (λ id out_id, mapProducerToConsumer inp out id = Some out_id)
      (kept_dims (λ id, bool_decide (mapProducerToConsumer inp out id = None))
         in_layout).*1
      (allocation_domain L) ∧
    contiguity L =
      (kept_dims (λ id, bool_decide (mapProducerToConsumer inp out id = None))
         in_layout).*2.
Proof.
  intros Hpref Hperm Hwf Hnone. unfold handle_SqueezeOp.
  cbn [as_TensorView]. rewrite Hpref. cbn [mbind res_bind].
  destruct (computePermutation _ _); [|done]. cbn [has_value negb].
  unfold layout_wf in Hwf.
  destruct (carry_over_total
              (λ id, bool_decide (mapProducerToConsumer inp out id = None))
              (mapProducerToConsumer inp out)
              (allocation_domain in_layout) 0 (contiguity in_layout)
              {| allocation_domain := []; contiguity := [] |})
    as [L HL]; [|lia|].
  { intros id _ Hid. apply bool_decide_eq_false in Hid.
    by destruct (mapProducerToConsumer inp out id). }
  rewrite HL. cbn [mbind res_bind]. unfold add. rewrite Hnone.
  apply carry_over_spec in HL as (images & Himg & Halloc & Hcontig).
  eexists _, L. cbn in *.
  split_and!; [done | apply lookup_insert_eq | by rewrite Halloc | done].
Qed.

End RuleLayouts.

Lemma handle_LoadStoreOp_layout_witness :
  ∃ st' L,
    handle_LoadStoreOp Ex.p2c (ValTensor Ex.t4) Ex.s4 empty_analysis = Ok st' ∧
    alias_to_source_ st' !! Ex.s4 = Some (Ex.t4, L) ∧
    contiguity L = [Some true; Some true].
Proof.
  assert (Hval :
    (st ← handle_LoadStoreOp Ex.p2c (ValTensor Ex.t4) Ex.s4 empty_analysis;
     Ok (has_value (alias_to_source_ st !! Ex.s4))) = Ok true)
    by (vm_compute; reflexivity).
  destruct (handle_LoadStoreOp Ex.p2c (ValTensor Ex.t4) Ex.s4 empty_analysis)
    as [st'|e] eqn:Hrun; [|discriminate Hval].
  destruct (handle_LoadStoreOp_layout Ex.p2c Ex.t4 Ex.s4 empty_analysis st'
              (Ex.layout_of Ex.t4)) as (L & HL & _ & Hcontig).
  - reflexivity.
  - vm_compute. discriminate.
  - exact Hrun.
  - exists st', L. split; [reflexivity|]. split; [exact HL | exact Hcontig].
Defined.

Lemma handle_LoadStoreOp_outcome_witness :
  handle_LoadStoreOp Ex.p2c (ValTensor Ex.q3) Ex.q2 empty_analysis
  = Err OutOfRange.
Proof.
  apply (handle_LoadStoreOp_outcome Ex.p2c Ex.q3 Ex.q2 empty_analysis
           (Ex.layout_of Ex.q3)).
  - reflexivity.
  - vm_compute. discriminate.
  - reflexivity.
  - exists (Ex.bcast 29). split; [|split; reflexivity].
    vm_compute. right. left.
Defined.

Lemma handle_BroadcastOp_layout_witness :
  ∃ st' L,
    handle_BroadcastOp Ex.p2c (ValTensor Ex.t3) Ex.b4 (λ i, i =? 3)
      empty_analysis = Ok st' ∧
    alias_to_source_ st' !! Ex.b4 = Some (Ex.t3, L) ∧
    contiguity L = [Some true; Some true; Some true; None].
Proof.
  assert (Hval :
    (st ← handle_BroadcastOp Ex.p2c (ValTensor Ex.t3) Ex.b4 (λ i, i =? 3)
            empty_analysis;
     Ok (has_value (alias_to_source_ st !! Ex.b4))) = Ok true)
    by (vm_compute; reflexivity).
  destruct (handle_BroadcastOp Ex.p2c (ValTensor Ex.t3) Ex.b4 (λ i, i =? 3)
              empty_analysis) as [st'|e] eqn:Hrun; [|discriminate Hval].
  destruct (handle_BroadcastOp_layout Ex.p2c Ex.t3 Ex.b4 (λ i, i =? 3)
              empty_analysis st' (Ex.layout_of Ex.t3))
    as (L & images & HL & _ & _ & Hcontig).
  - reflexivity.
  - vm_compute. discriminate.
  - exact Hrun.
  - exists st', L. split; [reflexivity|]. split; [exact HL | exact Hcontig].
Defined.

Lemma handle_SqueezeOp_layout_witness :
  ∃ st' L,
    handle_SqueezeOp Ex.p2c (ValTensor Ex.q3) Ex.q2 empty_analysis = Ok st' ∧
    alias_to_source_ st' !! Ex.q2 = Some (Ex.q3, L) ∧
    contiguity L = [Some true; Some false].
Proof.
  destruct (handle_SqueezeOp_layout Ex.p2c Ex.q3 Ex.q2 empty_analysis
              (Ex.layout_of Ex.q3)) as (st' & L & Hrun & HL & _ & Hcontig).
  - reflexivity.
  - vm_compute. discriminate.
  - reflexivity.
  - reflexivity.
  - exists st', L. split; [exact Hrun|]. split; [exact HL | exact Hcontig].
Defined.

(** ** The view rule *)

(** The first loop of the view rule collects the non-reduction allocation
    dimensions with their contiguity, in allocation order. *)
Lemma collect_allocation_spec :
  ∀ alloc i contig acc m,
    collect_allocation i alloc contig acc = Ok m →
    m = acc ++ filter (λ p, isReduction p.1 = false) (zip alloc (drop i contig)).
Proof.
  induction alloc as [|id alloc IH]; intros i contig acc m H; cbn in H.
  - injection H as <-. cbn. by rewrite app_nil_r.
  - destruct (isReduction id) eqn:Hred.
    + rewrite zip_drop_skip by (intros b; cbn; congruence). by apply IH.
    + inv_bind H. rename a into c. inv_bind H. rename a into acc'.
      apply at_index_Ok in Ha.
      unfold lhm_pushBack, lhm_insert in Ha0. case_bool_decide; [done|].
      assert (acc' = acc ++ [(id, c)]) as ->
        by (destruct acc; cbn in Ha0; by injection Ha0 as <-).
      apply IH in H as ->. rewrite (drop_S _ _ _ Ha). cbn [zip zip_with].
      rewrite filter_cons, decide_True by done. by rewrite <- app_assoc.
Qed.

Lemma lhm_erase_length {K V} `{EqDecision K} (key : K) (m : list (K * V))
    (v : V) (i : option K) m' :
  lhm_erase key m = Ok (v, i, m') → length m = S (length m').
Proof. intros Herase%lhm_erase_Permutation. by rewrite Herase. Qed.

Lemma lhm_insert_length {K V} `{EqDecision K} (i : option K) (key : K)
    (v : V) (m m' : list (K * V)) :
  lhm_insert i key v m = Ok m' → length m' = S (length m).
Proof.
  unfold lhm_insert. case_bool_decide; [done|].
  intros Hins%lhm_insert_before_Permutation. by rewrite Hins.
Qed.

(** A replayed split adds one dimension and a replayed merge removes one. *)
Lemma replay_transform_length c2p t m m' :
  replay_transform c2p t m = Ok (Some m') →
  length m' + (if isMerge t then 1 else 0)
  = length m + (if isSplit t then 1 else 0).
Proof.
  intros H. destruct t as [inp outer inner|outer inner out| |];
    cbn in H; try done.
  - inv_bind H. destruct a as [[c i] m1].
    destruct (splitContiguity c) as [oc ic].
    inv_bind H. inv_bind H. injection H as <-.
    apply lhm_erase_length in Ha. apply lhm_insert_length in Ha0, Ha1.
    cbn. lia.
  - inv_bind H. destruct a as [[oc i] m1].
    case_bool_decide; [done|].
    inv_bind H. destruct a as [[ic i2] m2].
    inv_bind H. destruct a as [[] c]; cbn in H; [|done].
    inv_bind H. injection H as <-.
    apply lhm_erase_length in Ha, Ha0. apply lhm_insert_length in Ha2.
    cbn. lia.
Qed.

Lemma replay_length c2p :
  ∀ ts m m',
    replay c2p ts m = Ok (Some m') →
    length m' + length (filter (λ t, isMerge t = true) ts)
    = length m + length (filter (λ t, isSplit t = true) ts).
Proof.
  induction ts as [|t ts IH]; intros m m' H; cbn in H.
  - injection H as <-. cbn. lia.
  - inv_bind H. destruct a as [m1|]; [|done].
    apply replay_transform_length in Ha. apply IH in H.
    rewrite !filter_cons.
    destruct t; cbn in *; repeat case_decide; try done; cbn; lia.
Qed.

(** A transformation that is neither a split nor a merge is fatal when the
    replay gets to it. *)
Lemma replay_unexpected c2p pre t post m0 m :
  replay c2p pre m0 = Ok (Some m) →
  isSplit t = false → isMerge t = false →
  replay c2p (pre ++ t :: post) m0 = Err NvfError.
Proof.
  intros Hpre Hs Hm. rewrite replay_app, Hpre. cbn [mbind res_bind replay].
  by destruct t.
Qed.

Lemma replay_gave_up c2p pre post m0 :
  replay c2p pre m0 = Ok None → replay c2p (pre ++ post) m0 = Ok None.
Proof. intros Hpre. by rewrite replay_app, Hpre. Qed.

(** X18: a replayed split works in place.  The two children take the
    position of the split dimension in the allocation order, outer before
    inner, with the contiguity [splitContiguity] gives them; the dimensions
    before and after keep their order and contiguity. *)
Theorem replay_transform_split_in_place c2p d o i (c : contig) l1 l2 :
  NoDup (l1 ++ (map_or_identity c2p d, c) :: l2).*1 →
  o ∉ (l1 ++ l2).*1 → i ∉ (l1 ++ l2).*1 → o ≠ i →
  replay_transform c2p (Split d o i) (l1 ++ (map_or_identity c2p d, c) :: l2)
  = Ok (Some (l1 ++ (o, (splitContiguity c).1)
                 :: (i, (splitContiguity c).2) :: l2)).
Proof.
  intros Hnd Ho Hi Hoi.
  rewrite fmap_app in Hnd. cbn in Hnd.
  apply NoDup_app in Hnd as (Hnd1 & Hdisj & Hnd2).
  assert (Hd1 : map_or_identity c2p d ∉ l1.*1)
    by (intros Hel; apply (Hdisj _ Hel); left).
  assert (Hhead : ∀ k, head (l2.*1) = Some k → k ∉ l1.*1).
  { intros k Hk Hel. apply (Hdisj _ Hel). right.
    destruct l2 as [|[k2 v2] l2]; simplify_eq/=. left. }
  pose proof Ho as Ho'. rewrite fmap_app in Ho'.
  apply not_elem_of_app in Ho' as [Ho1 Ho2].
  cbn [replay_transform].
  rewrite (lhm_erase_first _ c l1 l2 Hd1). cbn [mbind res_bind].
  destruct (splitContiguity c) as [oc ic]. cbn [fst snd].
  rewrite (lhm_insert_at l1 l2 o oc) by done. cbn [mbind res_bind].
  replace (l1 ++ (o, oc) :: l2) with ((l1 ++ [(o, oc)]) ++ l2)
    by by rewrite <- app_assoc.
  rewrite lhm_insert_at; [by rewrite <- app_assoc | |].
  - rewrite fmap_app in Hi. rewrite !fmap_app. cbn.
    rewrite !not_elem_of_app, list_elem_of_singleton.
    apply not_elem_of_app in Hi. naive_solver.
  - intros k Hk. rewrite fmap_app. cbn.
    rewrite not_elem_of_app, list_elem_of_singleton.
    split; [by apply Hhead|]. intros ->.
    apply Ho2. destruct l2 as [|[k2 v2] l2]; simplify_eq/=. left.
Qed.

(** X19: a replayed merge of two neighbours that the contiguity table
    accepts works in place: the merged dimension takes the position of the
    pair with the contiguity [mergeContiguity] returns, and the other
    dimensions keep their order and contiguity. *)
Theorem replay_transform_merge_in_place c2p outer inner out
    (oc ic c : contig) l1 l2 :
  NoDup (l1 ++ (map_or_identity c2p outer, oc)
            :: (map_or_identity c2p inner, ic) :: l2).*1 →
  out ∉ (l1 ++ l2).*1 →
  mergeContiguity (map_or_identity c2p outer) oc
    (map_or_identity c2p inner) ic = Ok (true, c) →
  replay_transform c2p (Merge outer inner out)
    (l1 ++ (map_or_identity c2p outer, oc)
        :: (map_or_identity c2p inner, ic) :: l2)
  = Ok (Some (l1 ++ (out, c) :: l2)).
Proof.
  intros Hnd Hout Hmerge.
  rewrite fmap_app in Hnd. cbn in Hnd.
  apply NoDup_app in Hnd as (_ & Hdisj & _).
  assert (Ho : map_or_identity c2p outer ∉ l1.*1)
    by (intros Hel; apply (Hdisj _ Hel); left).
  assert (Hi : map_or_identity c2p inner ∉ l1.*1)
    by (intros Hel; apply (Hdisj _ Hel); right; left).
  assert (Hhead : ∀ k, head (l2.*1) = Some k → k ∉ l1.*1).
  { intros k Hk Hel. apply (Hdisj _ Hel). right. right.
    destruct l2 as [|[k2 v2] l2]; simplify_eq/=. left. }
  cbn [replay_transform].
  rewrite (lhm_erase_first _ oc l1 (_ :: l2) Ho). cbn [mbind res_bind].
  rewrite bool_decide_eq_false_2 by (intros Hne; by apply Hne).
  rewrite (lhm_erase_first _ ic l1 l2 Hi). cbn [mbind res_bind].
  rewrite Hmerge. cbn [mbind res_bind negb].
  by rewrite (lhm_insert_at l1 l2 out c).
Qed.

Section ViewFacts.
Variable mapProducerToConsumer :
  TensorView → TensorView → IterDomain → option IterDomain.
Variable mapConsumerToProducer :
  TensorView → TensorView → IterDomain → option IterDomain.
Variable getAllExprsBetween :
  list IterDomain → list IterDomain → list IdExpr.

Local Abbreviation handle_ViewOp' :=
  (handle_ViewOp mapProducerToConsumer mapConsumerToProducer
     getAllExprsBetween).

(** X16: a transformation between the root and the logical domain of a view
    output that is neither a split nor a merge (a resize, say) is a fatal
    error of the view rule when the replay reaches it, and goes unnoticed
    when an earlier merge has already made the rule give up. *)
Theorem handle_ViewOp_unexpected_transform (inp out : TensorView)
    (st : AliasAnalysisResult) (in_layout : Layout)
    (m0 : list (IterDomain * contig)) (pre post : list IdExpr) (t : IdExpr) :
  preferredLayout st (ValTensor inp) = Ok in_layout →
  computePermutation (getMaybeRFactorDomain inp) (allocation_domain in_layout)
    ≠ None →
  collect_allocation 0 (allocation_domain in_layout) (contiguity in_layout) []
    = Ok m0 →
  getAllExprsBetween (getRootDomain out) (getMaybeRFactorDomain out)
    = pre ++ t :: post →
  isSplit t = false → isMerge t = false →
  (∀ m, replay (mapConsumerToProducer inp out) pre m0 = Ok (Some m) →
        handle_ViewOp' inp out st = Err NvfError) ∧
  (replay (mapConsumerToProducer inp out) pre m0 = Ok None →
   handle_ViewOp' inp out st = Ok st).
Proof.
  intros Hpref Hperm Hcollect Hts Hs Hm. unfold handle_ViewOp.
  rewrite Hpref. cbn [mbind res_bind].
  destruct (computePermutation _ _); [|done]. cbn [has_value negb].
  rewrite Hcollect, Hts. cbn [mbind res_bind]. split.
  - intros m Hpre. by rewrite (replay_unexpected _ _ _ _ _ m).
  - intros Hpre. by rewrite replay_gave_up.
Qed.

(** X17: the number of dimensions of the layout a view registers.  Each
    split between the root and the logical domain of the output adds one
    dimension to the non-reduction allocation dimensions of the input and
    each merge removes one; the contiguity has one flag per dimension. *)
Theorem handle_ViewOp_rank (inp out : TensorView)
    (st st' : AliasAnalysisResult) (in_layout : Layout) :
  preferredLayout st (ValTensor inp) = Ok in_layout →
  handle_ViewOp' inp out st = Ok st' →
  st' ≠ st →
  ∃ L,
    alias_to_source_ st' !! out = Some (inp, L) ∧
    length (allocation_domain L)
    + length (filter (λ t, isMerge t = true)
                (getAllExprsBetween (getRootDomain out)
                   (getMaybeRFactorDomain out)))
    = length (kept_dims isReduction in_layout)
      + length (filter (λ t, isSplit t = true)
                  (getAllExprsBetween (getRootDomain out)
                     (getMaybeRFactorDomain out))) ∧
    length (contiguity L) = length (allocation_domain L).
Proof.
  intros Hpref H Hne. unfold handle_ViewOp in H.
  rewrite Hpref in H. cbn [mbind res_bind] in H.
  destruct (computePermutation _ _); cbn [has_value negb] in H;
    [|injection H as <-; done].
  inv_bind H. rename a into m0. inv_bind H.
  destruct a as [m|]; [|injection H as <-; done].
  apply add_Ok in H as [_ ->]. eexists.
  cbn [alias_to_source_]. split; [apply lookup_insert_eq|].
  cbn [allocation_domain contiguity]. rewrite !length_fmap.
  split; [|done].
  apply collect_allocation_spec in Ha. cbn in Ha. subst m0.
  by apply replay_length in Ha0.
Qed.

(** X20: a view without any split or merge (a reshape to the same shape)
    registers the non-reduction allocation dimensions of its input in their
    order, each replaced by its image under the pairwise map or kept as it
    is when it has none, with the contiguity unchanged. *)
Theorem handle_ViewOp_no_transform (inp out : TensorView)
    (st st' : AliasAnalysisResult) (in_layout : Layout) :
  preferredLayout st (ValTensor inp) = Ok in_layout →
  computePermutation (getMaybeRFactorDomain inp) (allocation_domain in_layout)
    ≠ None →
  getAllExprsBetween (getRootDomain out) (getMaybeRFactorDomain out) = [] →
  handle_ViewOp' inp out st = Ok st' →
  alias_to_source_ st' !! out =
    Some (inp,
          {| allocation_domain :=
               map_or_identity (mapProducerToConsumer inp out) <$>
                 (kept_dims isReduction in_layout).*1;
             contiguity := (kept_dims isReduction in_layout).*2 |}).
Proof.
  intros Hpref Hperm Hts H. unfold handle_ViewOp in H.
  rewrite Hpref in H. cbn [mbind res_bind] in H.
  destruct (computePermutation _ _); [|done]. cbn [has_value negb] in H.
  inv_bind H. rename a into m0. rewrite Hts in H. cbn [replay mbind res_bind] in H.
  apply add_Ok in H as [_ ->]. cbn.
  apply collect_allocation_spec in Ha. cbn in Ha. subst m0.
  apply lookup_insert_eq.
Qed.
End ViewFacts.

Lemma replay_transform_split_in_place_witness :
  replay_transform (λ _, None) (Split (Ex.dim 2) (Ex.dim 4) (Ex.dim 5))
    [(Ex.dim 1, Some true); (Ex.dim 2, Some false); (Ex.dim 3, Some true)]
  = Ok (Some [(Ex.dim 1, Some true); (Ex.dim 4, Some true);
              (Ex.dim 5, Some false); (Ex.dim 3, Some true)]).
Proof.
  apply (replay_transform_split_in_place (λ _, None) (Ex.dim 2) (Ex.dim 4)
           (Ex.dim 5) (Some false) [(Ex.dim 1, Some true)]
           [(Ex.dim 3, Some true)]).
  - refine (bool_decide_unpack _ _). vm_compute. exact I.
  - refine (bool_decide_unpack _ _). vm_compute. exact I.
  - refine (bool_decide_unpack _ _). vm_compute. exact I.
  - discriminate.
Defined.

Lemma replay_transform_merge_in_place_witness :
  replay_transform (λ _, None) (Merge (Ex.dim 1) (Ex.dim 2) (Ex.dim 4))
    [(Ex.dim 1, Some true); (Ex.dim 2, Some false); (Ex.dim 3, Some true)]
  = Ok (Some [(Ex.dim 4, Some false); (Ex.dim 3, Some true)]).
Proof.
  apply (replay_transform_merge_in_place (λ _, None) (Ex.dim 1) (Ex.dim 2)
           (Ex.dim 4) (Some true) (Some false) (Some false) []
           [(Ex.dim 3, Some true)]).
  - refine (bool_decide_unpack _ _). vm_compute. exact I.
  - refine (bool_decide_unpack _ _). vm_compute. exact I.
  - reflexivity.
Defined.

Lemma handle_ViewOp_unexpected_transform_witness :
  handle_ViewOp Ex.p2c Ex.c2p Ex.between Ex.t3 Ex.s3 empty_analysis
  = Err NvfError.
Proof.
  apply (proj1 (handle_ViewOp_unexpected_transform Ex.p2c Ex.c2p Ex.between
                  Ex.t3 Ex.s3 empty_analysis (Ex.layout_of Ex.t3)
                  [(Ex.dim 21, Some true); (Ex.dim 22, Some true);
                   (Ex.dim 23, Some true)]
                  [] [] (Resize (Ex.dim 26) (Ex.dim 27))
                  eq_refl ltac:(vm_compute; discriminate) eq_refl eq_refl
                  eq_refl eq_refl)
           [(Ex.dim 21, Some true); (Ex.dim 22, Some true);
            (Ex.dim 23, Some true)]).
  reflexivity.
Defined.

Lemma handle_ViewOp_rank_witness :
  ∃ st' L,
    handle_ViewOp Ex.p2c Ex.c2p Ex.split_between Ex.t2 Ex.u3 empty_analysis
    = Ok st' ∧
    alias_to_source_ st' !! Ex.u3 = Some (Ex.t2, L) ∧
    length (allocation_domain L) = 3.
Proof.
  assert (Hval :
    (st ← handle_ViewOp Ex.p2c Ex.c2p Ex.split_between Ex.t2 Ex.u3
            empty_analysis;
     Ok (has_value (alias_to_source_ st !! Ex.u3))) = Ok true)
    by (vm_compute; reflexivity).
  destruct (handle_ViewOp Ex.p2c Ex.c2p Ex.split_between Ex.t2 Ex.u3
              empty_analysis) as [st'|e] eqn:Hrun; [|discriminate Hval].
  destruct (handle_ViewOp_rank Ex.p2c Ex.c2p Ex.split_between Ex.t2 Ex.u3
              empty_analysis st' (Ex.layout_of Ex.t2))
    as (L & HL & Hlen & _).
  - reflexivity.
  - exact Hrun.
  - intros ->. vm_compute in Hval. discriminate Hval.
  - exists st', L. split; [reflexivity|]. split; [exact HL|].
    match type of Hlen with
    | _ + ?merges = ?kept + ?splits =>
        change merges with 0 in Hlen; change kept with 2 in Hlen;
        change splits with 1 in Hlen
    end.
    lia.
Defined.

Lemma handle_ViewOp_no_transform_witness :
  ∃ st',
    handle_ViewOp Ex.p2c Ex.c2p Ex.between Ex.t2 Ex.r2 empty_analysis
    = Ok st' ∧
    alias_to_source_ st' !! Ex.r2 =
      Some (Ex.t2, {| allocation_domain := [Ex.dim 33; Ex.dim 34];
                      contiguity := [Some true; Some true] |}).
Proof.
  assert (Hval :
    (st ← handle_ViewOp Ex.p2c Ex.c2p Ex.between Ex.t2 Ex.r2 empty_analysis;
     Ok (has_value (alias_to_source_ st !! Ex.r2))) = Ok true)
    by (vm_compute; reflexivity).
  destruct (handle_ViewOp Ex.p2c Ex.c2p Ex.between Ex.t2 Ex.r2
              empty_analysis) as [st'|e] eqn:Hrun; [|discriminate Hval].
  exists st'. split; [reflexivity|].
  exact (handle_ViewOp_no_transform Ex.p2c Ex.c2p Ex.between Ex.t2 Ex.r2
           empty_analysis st' (Ex.layout_of Ex.t2) eq_refl
           ltac:(vm_compute; discriminate) eq_refl Hrun).
Defined.


(** ** More on the slice rule *)

Lemma pending_flag_false sets_flag minor :
  Forall (λ id, sets_flag id = false) minor →
  pending_flag sets_flag false minor = false.
Proof.
  induction 1 as [|id minor Hid _ IH]; cbn; [done|].
  rewrite Hid. by destruct (isBroadcast id).
Qed.

Section SliceOutermost.
Variable mapProducerToConsumer :
  TensorView → TensorView → IterDomain → option IterDomain.
Variable getAllExprsBetween :
  list IterDomain → list IterDomain → list IdExpr.

(** X21: slicing the major-most allocation dimension costs nothing.  When
    no allocation dimension of the output other than the first one is
    sliced, the slice rule marks no dimension non-contiguous: every
    broadcast dimension gets no contiguity and every other dimension the
    flag of the input at its index. *)
Theorem slice_outermost_only (inp out : TensorView)
    (st st' : AliasAnalysisResult) (in_layout : Layout) :
  preferredLayout st (ValTensor inp) = Ok in_layout →
  computePermutation (getMaybeRFactorDomain inp) (allocation_domain in_layout)
    ≠ None →
  handle_SliceOp mapProducerToConsumer getAllExprsBetween inp out st = Ok st' →
  ∃ L,
    alias_to_source_ st' !! out = Some (inp, L) ∧
    ((∀ i id, 0 < i → allocation_domain L !! i = Some id →
              is_sliced getAllExprsBetween (getRootDomain out) id = false) →
     ∀ i id, i < length (getMaybeRFactorDomain out) →
             allocation_domain L !! i = Some id →
             contiguity L !! i =
               if isBroadcast id then Some None
               else contiguity in_layout !! i).
Proof.
  intros Hpref Hperm H.
  apply handle_SliceOp_Ok in H as [(_ & L0 & HL0 & Hnone)|H].
  { rewrite Hpref in HL0. injection HL0 as <-. done. }
  destruct H as (in_layout' & r2r & L & Hpref' & _ & _ & Hscan & _ & Hadd).
  rewrite Hpref in Hpref'. injection Hpref' as <-.
  exists L. apply add_Ok in Hadd as [_ ->]. cbn [alias_to_source_].
  split; [apply lookup_insert_eq|].
  intros Hunsliced i id Hi Hid.
  apply slice_scan_spec in Hscan as (_ & _ & _ & Hlo);
    [|by rewrite length_replicate].
  rewrite (Hlo i id Hi Hid).
  rewrite pending_flag_false; [done|].
  apply Forall_lookup_2. intros j id' Hj.
  rewrite lookup_drop in Hj. apply lookup_take_Some in Hj as [Hj _].
  apply (Hunsliced (S i + j)); [lia | done].
Qed.
End SliceOutermost.

(** ** More on the device mesh *)

(** [std::unique] returns the end of the range exactly when no element is
    followed by an equal one. *)
Lemma std_unique_keeps_all (v : list Z) :
  length (DeviceMesh.std_unique v) = length v ↔ no_equal_neighbours v.
Proof.
  unfold no_equal_neighbours.
  induction v as [|x [|y rest] IH].
  - split; [|done]. by intros _ [|i] z Hz.
  - split; [|done]. by intros _ i z _; destruct i.
  - rewrite std_unique_cons2. case_decide as Hxy.
    + subst y. pose proof (std_unique_length_le (x :: rest)) as Hle.
      split; [cbn [length] in *; lia|].
      intros Hnb. by destruct (Hnb 0 x).
    + cbn [length] in *. split.
      * intros Hlen [|i] z Hz.
        { cbn in *. congruence. }
        apply (proj1 IH); [lia | done].
      * intros Hnb. f_equal. apply IH. intros i z. apply (Hnb (S i) z).
Qed.

(** X22: what [setDevices] accepts.  The mesh is built, with the devices in
    the given order, exactly when no device index is immediately followed
    by itself; any other list is a fatal error. *)
Theorem setDevices_criterion (devices : list Z) :
  (no_equal_neighbours devices →
   DeviceMesh.setDevices devices = Ok {| DeviceMesh.vector_ := devices |}) ∧
  (¬ no_equal_neighbours devices →
   DeviceMesh.setDevices devices = Err NvfError) ∧
  (∀ m, DeviceMesh.setDevices devices = Ok m →
        no_equal_neighbours devices ∧ DeviceMesh.vector m = devices).
Proof.
  unfold DeviceMesh.setDevices, DeviceMesh.unique_returns_end.
  pose proof (std_unique_keeps_all devices) as Hiff.
  split_and!.
  - intros Hnb. by rewrite bool_decide_eq_true_2 by by apply Hiff.
  - intros Hnb. rewrite bool_decide_eq_false_2; [done|]. by rewrite Hiff.
  - intros m. case_bool_decide as Hlen; [|done].
    intros [= <-]. split; [by apply Hiff | done].
Qed.

Lemma no_equal_neighbours_sorted (devices : list Z) :
  StronglySorted Z.le devices → no_equal_neighbours devices → NoDup devices.
Proof.
  induction 1 as [|x l Hsorted IH Hall]; intros Hnb; [constructor|].
  apply NoDup_cons. split.
  - destruct l as [|y l]; [apply not_elem_of_nil|].
    assert (x ≠ y) as Hxy.
    { intros ->. by apply (Hnb 0 y). }
    apply Forall_cons in Hall as [Hle Hall].
    inversion Hsorted as [|? ? _ Hall']; subst.
    intros [->|Hel]%elem_of_cons; [done|].
    rewrite Forall_forall in Hall'. specialize (Hall' _ Hel). lia.
  - apply IH. intros i z. apply (Hnb (S i) z).
Qed.

(** X23: on a sorted list the check is exact: a list of device indices in
    ascending order is accepted if and only if it has no duplicate. *)
Theorem setDevices_sorted (devices : list Z) :
  Sorted Z.le devices →
  (DeviceMesh.setDevices devices = Ok {| DeviceMesh.vector_ := devices |}
   ↔ NoDup devices).
Proof.
  intros Hsorted. apply Sorted_StronglySorted in Hsorted; [|apply _].
  split.
  - unfold DeviceMesh.setDevices, DeviceMesh.unique_returns_end.
    case_bool_decide as Hlen; [|done]. intros _.
    apply no_equal_neighbours_sorted; [done|].
    by apply std_unique_keeps_all.
  - apply setDevices_NoDup.
Qed.

(** X24: a mesh built from a list without duplicates holds the devices in
    the given order, and [has] answers membership in that list. *)
Theorem make_NoDup (devices : list Z) :
  NoDup devices →
  ∃ m, DeviceMesh.make devices = Ok m ∧
       DeviceMesh.vector m = devices ∧
       ∀ d, DeviceMesh.has m d = true ↔ d ∈ devices.
Proof.
  intros Hnd. eexists. split; [by apply setDevices_NoDup|].
  split; [done|]. intros d. unfold DeviceMesh.has. cbn.
  apply bool_decide_eq_true.
Qed.

Lemma slice_outermost_only_witness :
  ∃ st' L,
    handle_SliceOp Ex.p2c Ex.outer_between Ex.t2 Ex.o2 empty_analysis
    = Ok st' ∧
    alias_to_source_ st' !! Ex.o2 = Some (Ex.t2, L) ∧
    contiguity L !! 0 = Some (Some true) ∧
    contiguity L !! 1 = Some (Some true).
Proof.
  assert (Hval :
    (st ← handle_SliceOp Ex.p2c Ex.outer_between Ex.t2 Ex.o2 empty_analysis;
     Ok (alias_to_source_ st !! Ex.o2)) =
    Ok (Some (Ex.t2, {| allocation_domain := [Ex.dim 38; Ex.dim 34];
                        contiguity := [Some true; Some true] |})))
    by (vm_compute; reflexivity).
  destruct (handle_SliceOp Ex.p2c Ex.outer_between Ex.t2 Ex.o2
              empty_analysis) as [st'|e] eqn:Hrun; [|discriminate Hval].
  cbn [mbind res_bind] in Hval. injection Hval as Hval.
  destruct (slice_outermost_only Ex.p2c Ex.outer_between Ex.t2 Ex.o2
              empty_analysis st' (Ex.layout_of Ex.t2)) as (L & HL & Hcontig).
  - reflexivity.
  - vm_compute. discriminate.
  - exact Hrun.
  - exists st', L. split; [reflexivity|]. split; [exact HL|].
    rewrite HL in Hval. injection Hval as HLeq.
    assert (Hunsliced :
      ∀ i id, 0 < i → allocation_domain L !! i = Some id →
              is_sliced Ex.outer_between (getRootDomain Ex.o2) id = false).
    { rewrite HLeq. intros [|[|[|i]]] id Hi Hid; [lia | | discriminate Hid..].
      injection Hid as <-. reflexivity. }
    split.
    + rewrite (Hcontig Hunsliced 0 (Ex.dim 38)); [reflexivity | cbn; lia |].
      rewrite HLeq. reflexivity.
    + rewrite (Hcontig Hunsliced 1 (Ex.dim 34)); [reflexivity | cbn; lia |].
      rewrite HLeq. reflexivity.
Defined.

Lemma setDevices_sorted_witness :
  DeviceMesh.setDevices [0; 1; 3]%Z
  = Ok {| DeviceMesh.vector_ := [0; 1; 3]%Z |}
  ↔ NoDup [0; 1; 3]%Z.
Proof.
  apply (setDevices_sorted [0; 1; 3]%Z).
  repeat constructor; lia.
Defined.

Lemma make_NoDup_witness :
  ∃ m, DeviceMesh.make [2; 0; 1]%Z = Ok m ∧
       DeviceMesh.vector m = [2; 0; 1]%Z ∧
       ∀ d, DeviceMesh.has m d = true ↔ d ∈ [2; 0; 1]%Z.
Proof.
  apply (make_NoDup [2; 0; 1]%Z).
  refine (bool_decide_unpack _ _). vm_compute. exact I.
Defined.
